(** * Negative prompting: constraint evaluation and single-pass refinement

    A shallow embedding of the evaluation cell of
    [all_prompt_engineering_techniques/negative-prompting.ipynb]
    (together with the generation call of the cell before it), and the
    properties of the three constraint predicates, of [evaluate_output]
    and of the refinement branch.

    Text.  A Python [str] is a sequence of code points.  It is embedded
    as a list of [ascii] characters read as the code points U+0000 to
    U+00FF; on that range the character tables below ([isspace],
    [tolower], [isalnum]) are those of CPython's [str.isspace],
    [str.lower] and of the [re] module's [\w] class for [str] patterns.

    Objects.  The two dictionaries of the cell ([constraints] and the
    fresh [results] of every call) and the response strings live in a
    heap of objects addressed by location, so that sharing and mutation
    are visible.  The language model is an oracle consulted through
    [invoke]; every call and every [print] is recorded in a trace. *)

From stdpp Require Import base option list strings gmap.
From Stdlib Require Import Ascii NArith Bool Lia.

Set Default Proof Using "Type".

(** * The embedding *)

(** ** Text *)

Definition str := list ascii.

(** String literals for [str]. *)
Inductive str_literal := LitNil | LitCons (c : ascii) (s : str_literal).

Fixpoint literal_of_bytes (l : list Byte.byte) : str_literal :=
  match l with
  | [] => LitNil
  | b :: l' => LitCons (ascii_of_byte b) (literal_of_bytes l')
  end.

Fixpoint bytes_of_literal (s : str_literal) : list Byte.byte :=
  match s with
  | LitNil => []
  | LitCons c s' => byte_of_ascii c :: bytes_of_literal s'
  end.

Declare Scope str_scope.
Delimit Scope str_scope with str.
Bind Scope str_scope with str.

#[warnings="-via-type-mismatch,-via-type-remapping"]
String Notation str literal_of_bytes bytes_of_literal
  (via str_literal mapping [[nil] => LitNil, [cons] => LitCons]) : str_scope.

Open Scope str_scope.

(** The line feed of a triple-quoted literal. *)
Definition LF : ascii := ascii_of_N 10.

Module Char.

Definition code (c : ascii) : N := N_of_ascii c.

Definition between (lo hi : N) (c : ascii) : bool :=
  ((lo <=? code c) && (code c <=? hi))%N.

(** [str.isspace] on one character: TAB..CR, FS..US, SPACE, NEL, NBSP. *)
Definition isspace (c : ascii) : bool :=
  between 9 13 c || between 28 32 c || between 133 133 c || between 160 160 c.

(** Characters with a lower-case mapping: A..Z and the Latin-1 capitals
    (U+00C0..U+00DE without the multiplication sign U+00D7). *)
Definition isupper (c : ascii) : bool :=
  between 65 90 c || between 192 214 c || between 216 222 c.

Definition tolower (c : ascii) : ascii :=
  if isupper c then ascii_of_N (code c + 32) else c.

(** [str.isalnum]: letters, decimal digits and the other numeric
    characters (superscripts and vulgar fractions). *)
Definition isalnum (c : ascii) : bool :=
  between 48 57 c || between 65 90 c || between 97 122 c
  || between 170 170 c || between 178 179 c || between 181 181 c
  || between 185 186 c || between 188 190 c
  || between 192 214 c || between 216 246 c || between 248 255 c.

(** The class [\w] of the [re] module. *)
Definition isword (c : ascii) : bool := isalnum c || between 95 95 c.

Definition eqb (a b : ascii) : bool := bool_decide (a = b).

End Char.

Module Str.

(** [x.lower()] *)
Definition lower (x : str) : str := map Char.tolower x.

(** [x.split()]: runs of whitespace separate the words, leading and
    trailing whitespace is dropped.  [cur] is the word being read. *)
Fixpoint split_from (cur : str) (x : str) : list str :=
  match x with
  | [] => match cur with [] => [] | _ => [cur] end
  | c :: x' =>
      if Char.isspace c then
        match cur with
        | [] => split_from [] x'
        | _ => cur :: split_from [] x'
        end
      else split_from (cur ++ [c]) x'
  end.

Definition split (x : str) : list str := split_from [] x.

Fixpoint startswith (w x : str) : bool :=
  match w, x with
  | [], _ => true
  | _ :: _, [] => false
  | a :: w', b :: x' => Char.eqb a b && startswith w' x'
  end.

(** [w in x] *)
Fixpoint contains (w x : str) : bool :=
  startswith w x ||
  match x with
  | [] => false
  | _ :: x' => contains w x'
  end.

End Str.

(** ** Regular expressions: the fragment of [re] used by the cell *)

Module Re.

Inductive regex :=
| Eps
| Lit (c : ascii)
| WordBoundary
| Seq (r1 r2 : regex)
| Alt (r1 r2 : regex)
| Group (r : regex).

(** A run of literal characters, as [as] or [like] in a pattern. *)
Fixpoint literal (w : str) : regex :=
  match w with
  | [] => Eps
  | c :: w' => Seq (Lit c) (literal w')
  end.

Record flags := { IGNORECASE : bool }.

(** A pattern character against a subject character. *)
Definition char_match (fl : flags) (p a : ascii) : bool :=
  if IGNORECASE fl then Char.eqb (Char.tolower a) (Char.tolower p)
  else Char.eqb a p.

Definition isword_opt (c : option ascii) : bool :=
  match c with Some a => Char.isword a | None => false end.

(** [\b]: exactly one side of the position is a word character; the
    ends of the subject count as non-word. *)
Definition at_boundary (prev : option ascii) (s : str) : bool :=
  xorb (isword_opt prev) (isword_opt (head s)).

(** Backtracking matcher.  [prev] is the character before the current
    position, [s] the rest of the subject, [k] what remains to match. *)
Fixpoint match_here (fl : flags) (r : regex) (prev : option ascii) (s : str)
    (k : option ascii -> str -> bool) : bool :=
  match r with
  | Eps => k prev s
  | Lit c =>
      match s with
      | a :: s' => char_match fl c a && k (Some a) s'
      | [] => false
      end
  | WordBoundary => at_boundary prev s && k prev s
  | Seq r1 r2 => match_here fl r1 prev s (fun p s' => match_here fl r2 p s' k)
  | Alt r1 r2 => match_here fl r1 prev s k || match_here fl r2 prev s k
  | Group r' => match_here fl r' prev s k
  end.

(** [re.search]: the first position from which the pattern matches. *)
Fixpoint search_from (fl : flags) (r : regex) (prev : option ascii) (s : str) : bool :=
  match_here fl r prev s (fun _ _ => true) ||
  match s with
  | [] => false
  | a :: s' => search_from fl r (Some a) s'
  end.

(** Truth value of [re.search(r, x, flags)]: a match object is true,
    [None] is false. *)
Definition search (r : regex) (x : str) (fl : flags) : bool :=
  search_from fl r None x.

End Re.

(** ** The constraint predicates of the cell *)

(** [lambda x: len(x.split()) <= 100] *)
Definition word_count (x : str) : bool :=
  (length (Str.split x) <=? 100)%nat.

(** The list literal of the second lambda. *)
Definition excluded_words : list str :=
  ["robot"; "human-like"; "science fiction"].

(** [lambda x: all(word not in x.lower() for word in [...])] *)
Definition no_excluded_words (x : str) : bool :=
  forallb (fun word => negb (Str.contains word (Str.lower x))) excluded_words.

(** The pattern [r"\b(as|like)\b"]. *)
Definition analogy_pattern : Re.regex :=
  Re.Seq Re.WordBoundary
    (Re.Seq (Re.Group (Re.Alt (Re.literal "as") (Re.literal "like")))
            Re.WordBoundary).

(** [lambda x: not re.search(r"\b(as|like)\b", x, re.IGNORECASE)] *)
Definition no_analogies (x : str) : bool :=
  negb (Re.search analogy_pattern x {| Re.IGNORECASE := true |}).

(** ** Exceptions, objects and the heap *)

Inductive exn :=
| KeyError (k : str)
| ValueError
| TypeError
| AttributeError
| GenerationError (msg : str).

Inductive result (A : Type) : Type :=
| Ok (a : A)
| Raised (e : exn).

Arguments Ok {A} a.
Arguments Raised {A} e.

(** A constraint: a callable from the response text to a truth value,
    which, like any Python callable, may raise.  The callables of the
    cell are lambdas over their argument: they read and write no other
    object. *)
Definition check_func := str -> result bool.

(** A dictionary keeps its keys in insertion order and holds each key
    once. *)
Definition dict (V : Type) := list (str * V).

Definition keys {V} (d : dict V) : list str := map fst d.

(** [d[k] = v] *)
Fixpoint setitem {V} (k : str) (v : V) (d : dict V) : dict V :=
  match d with
  | [] => [(k, v)]
  | (k', v') :: d' =>
      if decide (k = k') then (k, v) :: d' else (k', v') :: setitem k v d'
  end.

(** A dictionary display [{k1: v1, ..., kn: vn}]. *)
Definition dict_display {V} (entries : list (str * V)) : dict V :=
  fold_left (fun d kv => setitem (fst kv) (snd kv) d) entries [].

(** Objects are referred to by location. *)
Definition loc := positive.

(** The objects of the cell: texts, the dictionary of constraints and
    the dictionaries of results. *)
Inductive obj :=
| OStr (s : str)
| OChecks (d : dict check_func)
| OBools (d : dict bool).

(** What [print] shows. *)
Inductive printed :=
| PStr (s : str)
| PDict (d : dict bool).

(** What a run does to the outside: calls of the model, with the reply
    or the failure, and printed lines. *)
Inductive event :=
| Invoke (prompt : str) (reply : result str)
| Print (args : list printed).

Record state := State { heap : gmap loc obj; out : list event }.

(** ** A state and exception monad for the cell *)

Definition M (A : Type) : Type := state -> state * result A.

Definition ret {A} (a : A) : M A := fun st => (st, Ok a).

Definition raise {A} (e : exn) : M A := fun st => (st, Raised e).

Definition bind {A B} (m : M A) (k : A -> M B) : M B :=
  fun st =>
    match m st with
    | (st', Ok a) => k a st'
    | (st', Raised e) => (st', Raised e)
    end.

Notation "x <- m ;; k" := (bind m (fun x => k))
  (at level 100, m at next level, right associativity).
Notation "m ;; k" := (bind m (fun _ => k))
  (at level 100, right associativity).

(** A computation without effect on the state. *)
Definition lift {A} (r : result A) : M A := fun st => (st, r).

(** [for x in xs: body(x)] *)
Fixpoint for_each {A} (xs : list A) (body : A -> M unit) : M unit :=
  match xs with
  | [] => ret tt
  | x :: xs' => body x ;; for_each xs' body
  end.

(** A new object, at a location not yet in use. *)
Definition alloc (o : obj) : M loc :=
  fun st =>
    let l := fresh (dom (heap st)) in
    (State (<[l := o]> (heap st)) (out st), Ok l).

(** The object a reference points to. *)
Definition load (l : loc) : M obj :=
  fun st =>
    match heap st !! l with
    | Some o => (st, Ok o)
    | None => (st, Raised TypeError)
    end.

(** Update of an object in place. *)
Definition store (l : loc) (o : obj) : M unit :=
  fun st => (State (<[l := o]> (heap st)) (out st), Ok tt).

(** The text of a [str] object; the methods used on it exist on no
    other kind of object. *)
Definition get_str (l : loc) : M str :=
  o <- load l ;;
  match o with OStr s => ret s | _ => raise AttributeError end.

(** [d.items()] of a dictionary of callables *)
Definition items (l : loc) : M (dict check_func) :=
  o <- load l ;;
  match o with OChecks d => ret d | _ => raise AttributeError end.

(** The contents of a dictionary of results. *)
Definition get_bools (l : loc) : M (dict bool) :=
  o <- load l ;;
  match o with OBools d => ret d | _ => raise AttributeError end.

(** [d.values()] *)
Definition values (l : loc) : M (list bool) :=
  d <- get_bools l ;; ret (map snd d).

(** [results[k] = b], in place *)
Definition assign (l : loc) (k : str) (b : bool) : M unit :=
  d <- get_bools l ;; store l (OBools (setitem k b d)).

(** [print(...)]: one line on standard output *)
Definition print (args : list printed) : M unit :=
  fun st => (State (heap st) (out st ++ [Print args]), Ok tt).

(** ** [evaluate_output] *)

Definition evaluate_output (output constraints : loc) : M loc :=
  results <- alloc (OBools []) ;;
  entries <- items constraints ;;
  for_each entries (fun '(constraint, check_func) =>
    x <- get_str output ;;
    b <- lift (check_func x) ;;
    assign results constraint b) ;;
  ret results.

(** The dictionary [constraints] of the cell. *)
Definition constraints_display : dict check_func :=
  dict_display
    [ ("word_count", fun x => Ok (word_count x));
      ("no_excluded_words", fun x => Ok (no_excluded_words x));
      ("no_analogies", fun x => Ok (no_analogies x)) ].

(** ** Prompt templates *)

Record PromptTemplate := {
  input_variables : list str;
  template : str
}.

(** The value given for a field. *)
Fixpoint kwarg (name : str) (kwargs : list (str * str)) : option str :=
  match kwargs with
  | [] => None
  | (k, v) :: rest => if decide (k = name) then Some v else kwarg name rest
  end.

(** Substitution of the named fields [{name}] of a template.  [field] is
    the name being read between braces, if any.  A field without a value
    raises [KeyError]; values that name no field are ignored.  The brace
    escapes of [str.format] do not occur in the template of the cell and
    are taken as malformed. *)
Fixpoint format_from (field : option str) (t : str) (kwargs : list (str * str))
    : result str :=
  match t, field with
  | [], None => Ok []
  | [], Some _ => Raised ValueError
  | c :: t', None =>
      if Char.eqb c "{" then format_from (Some []) t' kwargs
      else if Char.eqb c "}" then Raised ValueError
      else match format_from None t' kwargs with
           | Ok s => Ok (c :: s)
           | Raised e => Raised e
           end
  | c :: t', Some name =>
      if Char.eqb c "}" then
        match kwarg name kwargs with
        | None => Raised (KeyError name)
        | Some v =>
            match format_from None t' kwargs with
            | Ok s => Ok (v ++ s)
            | Raised e => Raised e
            end
        end
      else if Char.eqb c "{" then Raised ValueError
      else format_from (Some (name ++ [c])) t' kwargs
  end.

(** [prompt.format(name=value, ...)] *)
Definition format (p : PromptTemplate) (kwargs : list (str * str)) : result str :=
  format_from None (template p) kwargs.

(** The template of the previous cell. *)
Definition constraint_prompt : PromptTemplate := {|
  input_variables := ["topic"; "style"; "excluded_words"];
  template :=
    "Write a {style} description of {topic}." ++ [LF] ++
    "    Constraints:" ++ [LF] ++
    "    1. Do not use any of these words: {excluded_words}" ++ [LF] ++
    "    2. Keep the description under 100 words" ++ [LF] ++
    "    3. Do not use analogies or metaphors" ++ [LF] ++
    "    4. Focus only on factual information"
|}.

(** The keyword arguments of the first [format] call. *)
Definition base_parameters : list (str * str) :=
  [ ("topic", "artificial intelligence");
    ("style", "technical");
    ("excluded_words", "robot, human-like, science fiction") ].

(** The keyword arguments of the [format] call of the refinement branch. *)
Definition refined_parameters : list (str * str) :=
  [ ("topic", "artificial intelligence");
    ("style", "technical and concise");
    ("excluded_words", "robot, human-like, science fiction, like, as") ].

(** ** The cell, against an arbitrary language model *)

(** What the cell leaves bound when it ends: the global names and the
    objects they refer to. *)
Record refinement := {
  refined_prompt : str;
  refined_response : loc;
  refined_evaluation : loc
}.

Record bindings := {
  response : loc;
  constraints : loc;
  evaluation_results : loc;
  refined : option refinement
}.

Section Notebook.

(** [llm.invoke(prompt).content]: the reply may depend on everything
    that happened before, and the call may fail. *)
Variable llm : list event -> str -> result str.

Definition invoke (prompt : str) : M str :=
  fun st =>
    let reply := llm (out st) prompt in
    (State (heap st) (out st ++ [Invoke prompt reply]), reply).

(** [get_response(prompt)] *)
Definition get_response (prompt : str) : M loc :=
  content <- invoke prompt ;;
  alloc (OStr content).

(** The generation of the previous cell, then the evaluation cell. *)
Definition run_cell : M bindings :=
  prompt <- lift (format constraint_prompt base_parameters) ;;
  response <- get_response prompt ;;
  text <- get_str response ;;
  print [PStr text] ;;
  constraints <- alloc (OChecks constraints_display) ;;
  evaluation_results <- evaluate_output response constraints ;;
  shown <- get_bools evaluation_results ;;
  print [PStr "Evaluation results:"; PDict shown] ;;
  vs <- values evaluation_results ;;
  if negb (forallb id vs) then
    refined_prompt <- lift (format constraint_prompt refined_parameters) ;;
    refined_response <- get_response refined_prompt ;;
    text <- get_str refined_response ;;
    print [PStr ([LF] ++ "Refined response:" ++ [LF]); PStr text] ;;
    refined_evaluation <- evaluate_output refined_response constraints ;;
    shown <- get_bools refined_evaluation ;;
    print [PStr ([LF] ++ "Refined evaluation results:"); PDict shown] ;;
    ret {| response := response; constraints := constraints;
           evaluation_results := evaluation_results;
           refined := Some {| refined_prompt := refined_prompt;
                              refined_response := refined_response;
                              refined_evaluation := refined_evaluation |} |}
  else
    ret {| response := response; constraints := constraints;
           evaluation_results := evaluation_results;
           refined := None |}.

End Notebook.

(** ** The cells before the evaluation *)

(** The template of the cell [1. Using Negative Examples]. *)
Definition negative_example_prompt : PromptTemplate := {|
  input_variables := ["topic"];
  template :=
    "Provide a brief explanation of {topic}. " ++ [LF] ++
    "    Do NOT include any of the following in your explanation:" ++ [LF] ++
    "    - Technical jargon or complex terminology" ++ [LF] ++
    "    - Historical background or dates" ++ [LF] ++
    "    - Comparisons to other related topics" ++ [LF] ++
    "    Your explanation should be simple, direct, and focus only on the core concept."
|}.

(** The template of the cell [2. Specifying Exclusions]. *)
Definition exclusion_prompt : PromptTemplate := {|
  input_variables := ["topic"; "exclude"];
  template :=
    "Write a short paragraph about {topic}. " ++ [LF] ++
    "    Important: Do not mention or reference anything related to {exclude}."
|}.

Section Cells.

Variable llm : list event -> str -> result str.




End Cells.

(** * Vocabulary of the statements *)

(** ** Words of a text *)

(** Whitespace only (the empty text included). *)
Definition blank (s : str) : Prop := forallb Char.isspace s = true.

(** A word: at least one character, none of them whitespace. *)
Definition is_word (w : str) : Prop :=
  w <> [] /\ forallb (fun c => negb (Char.isspace c)) w = true.

(** [words_of x ws]: [ws] are the whitespace-delimited words of [x], in
    order.  Words are separated by at least one whitespace character;
    whitespace may lead and trail. *)
Inductive words_of : str -> list str -> Prop :=
| words_none s :
    blank s -> words_of s []
| words_end s w :
    blank s -> is_word w -> words_of (s ++ w) [w]
| words_more s w c x ws :
    blank s -> is_word w -> Char.isspace c = true -> words_of x ws ->
    words_of (s ++ w ++ c :: x) (w :: ws).

(** ** Occurrences of a word *)

(** [w] occurs in [x] up to case: a substring of [x] differs from [w] at
    most in the case of its letters. *)
Definition occurs_ignoring_case (w x : str) : Prop :=
  exists pre s post, x = pre ++ s ++ post /\ Str.lower s = Str.lower w.

(** [w] occurs in [x] as a whole word, up to case: a substring of [x]
    differs from [w] at most in case, and the characters next to it, if
    any, are not word characters. *)
Definition occurs_as_whole_word (w x : str) : Prop :=
  exists pre s post,
    x = pre ++ s ++ post /\ Str.lower s = Str.lower w /\
    Re.isword_opt (last pre) = false /\ Re.isword_opt (head post) = false.

(** The flags of the search of the cell. *)
Definition ignore_case : Re.flags := {| Re.IGNORECASE := true |}.

(** The character before the position reached after reading [t]. *)
Definition last_or (prev : option ascii) (t : str) : option ascii :=
  match last t with Some c => Some c | None => prev end.

(** A word that begins and ends with a word character, as [as] and
    [like] do. *)
Definition wordlike (w : str) : Prop :=
  Re.isword_opt (head w) = true /\ Re.isword_opt (last w) = true.

(** ** Results of [evaluate_output] *)

(** The loop of [evaluate_output] on the dictionary contents alone: the
    entries are checked in order and recorded in [acc]; the first
    callable that raises ends the loop. *)
Fixpoint record_checks (x : str) (entries : dict check_func) (acc : dict bool)
    : dict bool * option exn :=
  match entries with
  | [] => (acc, None)
  | (k, f) :: rest =>
      match f x with
      | Ok b => record_checks x rest (setitem k b acc)
      | Raised e => (acc, Some e)
      end
  end.

(** [d] holds, name by name and in order, what the callables of [C]
    return on [x]. *)
Definition verdicts (x : str) (C : dict check_func) (d : dict bool) : Prop :=
  Forall2 (fun kf kb => fst kb = fst kf /\ snd kf x = Ok (snd kb)) C d.

(** The contents of the dictionary a call returned. *)
Definition returned (r : state * result loc) : result (dict bool) :=
  match snd r with
  | Ok l =>
      match heap (fst r) !! l with
      | Some (OBools d) => Ok d
      | _ => Raised TypeError
      end
  | Raised e => Raised e
  end.

(** [st'] differs from [st] at most in objects that did not exist in
    [st]: nothing was printed, no call to the model was made, and every
    object of [st] is as it was. *)
Definition unchanged (st st' : state) : Prop :=
  out st' = out st /\
  forall l o, heap st !! l = Some o -> heap st' !! l = Some o.

(** How the loop of [evaluate_output] ends. *)
Definition loop_outcome (e : option exn) : result unit :=
  match e with None => Ok tt | Some e => Raised e end.

(** The verdicts of the three constraints of the cell. *)
Definition evaluation (x : str) : dict bool :=
  [ ("word_count", word_count x);
    ("no_excluded_words", no_excluded_words x);
    ("no_analogies", no_analogies x) ].

(** [m] leaves the trace alone and writes to no object outside [L]. *)
Definition writes_within (L : loc -> Prop) {A} (m : M A) : Prop :=
  forall st,
    out (fst (m st)) = out st /\
    forall l, ~ L l -> heap (fst (m st)) !! l = heap st !! l.

(** The verdict of one entry; a callable that raises has none. *)
Definition verdict_of (x : str) (kf : str * check_func) : str * bool :=
  (fst kf, match snd kf x with Ok b => b | Raised _ => false end).

(** The lines a trace shows on standard output. *)
Definition printed_lines (tr : list event) : list (list printed) :=
  omap (fun e => match e with Print args => Some args | Invoke _ _ => None end) tr.

(** ** Runs of the cell *)

(** The generation calls recorded in a trace. *)
Definition invocations (tr : list event) : list (str * result str) :=
  omap (fun e => match e with Invoke p r => Some (p, r) | Print _ => None end) tr.

(** A language model that answers its n-th call with the n-th reply of a
    script and fails once the script is used up. *)
Definition scripted (replies : list str) : list event -> str -> result str :=
  fun tr _ =>
    match replies !! length (invocations tr) with
    | Some r => Ok r
    | None => Raised (GenerationError "no reply")
    end.

(** What a run added to the trace. *)
Definition new_events (st st' : state) : list event :=
  drop (length (out st)) (out st').

(** The generation calls of a run. *)
Definition generation_calls (st st' : state) : list (str * result str) :=
  invocations (new_events st st').

(** At least one constraint of an evaluation result is false. *)
Definition some_constraint_fails (d : dict bool) : Prop :=
  exists k, In (k, false) d.

(** The text of the first prompt: the template with the keyword
    arguments of the first [format] call in place. *)
Definition initial_prompt : str :=
  "Write a technical description of artificial intelligence." ++ [LF] ++
  "    Constraints:" ++ [LF] ++
  "    1. Do not use any of these words: robot, human-like, science fiction" ++ [LF] ++
  "    2. Keep the description under 100 words" ++ [LF] ++
  "    3. Do not use analogies or metaphors" ++ [LF] ++
  "    4. Focus only on factual information".

(** The text of the refined prompt. *)
Definition refined_prompt_text : str :=
  "Write a technical and concise description of artificial intelligence." ++ [LF] ++
  "    Constraints:" ++ [LF] ++
  "    1. Do not use any of these words: robot, human-like, science fiction, like, as" ++ [LF] ++
  "    2. Keep the description under 100 words" ++ [LF] ++
  "    3. Do not use analogies or metaphors" ++ [LF] ++
  "    4. Focus only on factual information".

(** [all(d.values())] *)
Definition all_true (d : dict bool) : bool := forallb id (map snd d).

(** The state of the cell when it reaches its [if], after a first
    reply [r], and the objects bound to [response], [constraints] and
    [evaluation_results]. *)
Definition reached_if (st : state) (r : str) : state * (loc * loc * loc) :=
  let l1 := fresh (dom (heap st)) in
  let h1 := <[l1 := OStr r]> (heap st) in
  let l2 := fresh (dom h1) in
  let h2 := <[l2 := OChecks constraints_display]> h1 in
  let l3 := fresh (dom h2) in
  let h3 := <[l3 := OBools (evaluation r)]> h2 in
  (State h3 (out st ++ [Invoke initial_prompt (Ok r);
                        Print [PStr r];
                        Print [PStr "Evaluation results:"; PDict (evaluation r)]]),
   (l1, l2, l3)).

(** The state when the refinement branch ends, after a second reply
    [r2], and the objects bound to [refined_response] and
    [refined_evaluation]. *)
Definition reached_end (st : state) (r2 : str) : state * (loc * loc) :=
  let l4 := fresh (dom (heap st)) in
  let h4 := <[l4 := OStr r2]> (heap st) in
  let l5 := fresh (dom h4) in
  let h5 := <[l5 := OBools (evaluation r2)]> h4 in
  (State h5 (out st ++ [Invoke refined_prompt_text (Ok r2);
                        Print [PStr ([LF] ++ "Refined response:" ++ [LF]); PStr r2];
                        Print [PStr ([LF] ++ "Refined evaluation results:");
                               PDict (evaluation r2)]]),
   (l4, l5)).

Definition failed (st : state) (prompt : str) (e : exn) : state :=
  State (heap st) (out st ++ [Invoke prompt (Raised e)]).

(** The outcome of the cell by cases on the replies of the model. *)
Definition cell_outcome (llm : list event -> str -> result str) (st : state)
    : state * result bindings :=
  match llm (out st) initial_prompt with
  | Raised e => (failed st initial_prompt e, Raised e)
  | Ok r =>
      let '(st3, (l1, l2, l3)) := reached_if st r in
      if all_true (evaluation r) then
        (st3, Ok {| response := l1; constraints := l2;
                    evaluation_results := l3; refined := None |})
      else
        match llm (out st3) refined_prompt_text with
        | Raised e => (failed st3 refined_prompt_text e, Raised e)
        | Ok r2 =>
            let '(st5, (l4, l5)) := reached_end st3 r2 in
            (st5, Ok {| response := l1; constraints := l2;
                        evaluation_results := l3;
                        refined := Some {| refined_prompt := refined_prompt_text;
                                           refined_response := l4;
                                           refined_evaluation := l5 |} |})
        end
  end.




(** ** Sample inputs *)

(** Words written one after the other, a space in between. *)
Fixpoint spaced (ws : list str) : str :=
  match ws with
  | [] => []
  | [w] => w
  | w :: ws' => w ++ " " ++ spaced ws'
  end.

(** The words of a response of 101 words. *)
Definition hundred_and_one_words : list str := replicate 101 "word".

(** A reply of a space, a tabulation and two line ends. *)
Definition whitespace_reply : str := [" "%char; ascii_of_N 9; LF; ascii_of_N 13].

(** A heap with an empty response and the dictionary of the cell. *)
Definition empty_reply_state : state :=
  State (<[2%positive := OChecks constraints_display]> (<[1%positive := OStr ""]> ∅)) [].

(** A reply with an analogy, then one without. *)
Definition analogy_then_plain : list event -> str -> result str :=
  scripted ["It learns like a brain."; "It learns from data."].

(** The two replies recorded in the outputs of the notebook. *)
Definition recorded_response : str :=
  "Artificial intelligence (AI) refers to the simulation of cognitive " ++
  "processes by computer systems. This includes the ability to learn " ++
  "from data, recognize patterns, make decisions, and perform tasks " ++
  "that typically require intelligence. AI encompasses various " ++
  "subfields such as machine learning, natural language processing, " ++
  "and computer vision. Algorithms are designed to analyze large " ++
  "datasets, enabling systems to improve performance over time. AI " ++
  "applications range from data analysis and image recognition to " ++
  "autonomous systems and decision support tools. The development of " ++
  "AI involves interdisciplinary techniques, including mathematics, " ++
  "statistics, and computer programming.".

Definition recorded_refined_response : str :=
  "Artificial intelligence (AI) refers to the simulation of cognitive " ++
  "processes by computer systems. It encompasses various subfields, " ++
  "including machine learning, natural language processing, and " ++
  "computer vision. AI systems analyze data, recognize patterns, and " ++
  "make decisions based on algorithms. They can perform tasks such as " ++
  "speech recognition, image analysis, and predictive modeling. AI " ++
  "applications are utilized in industries such as finance, " ++
  "healthcare, and autonomous systems, enhancing efficiency and " ++
  "enabling advanced problem-solving capabilities. The development of " ++
  "AI relies on large datasets, computational power, and " ++
  "sophisticated algorithms to improve accuracy and performance over " ++
  "time.".

(** A model that replays the recorded run. *)
Definition recorded_model : list event -> str -> result str :=
  scripted [recorded_response; recorded_refined_response].

(** A dictionary whose second callable raises, and a heap with it. *)
Definition broken_constraints : dict check_func :=
  [ ("word_count", fun x => Ok (word_count x));
    ("broken", fun _ => Raised ValueError);
    ("no_analogies", fun x => Ok (no_analogies x)) ].

Definition broken_state : state :=
  State (<[2%positive := OChecks broken_constraints]>
           (<[1%positive := OStr "It learns like a brain."]> ∅)) [].

(** The constraints of the cell entered in another order, and a heap
    with both dictionaries. *)
Definition reordered_constraints : dict check_func :=
  [ ("no_analogies", fun x => Ok (no_analogies x));
    ("word_count", fun x => Ok (word_count x));
    ("no_excluded_words", fun x => Ok (no_excluded_words x)) ].

Definition reordered_state : state :=
  State (<[3%positive := OChecks reordered_constraints]>
           (<[2%positive := OChecks constraints_display]>
              (<[1%positive := OStr "It learns like a brain."]> ∅))) [].

(** A heap with a response and a dictionary without entries. *)
Definition no_constraints_state : state :=
  State (<[2%positive := OChecks []]>
           (<[1%positive := OStr "It learns like a brain."]> ∅)) [].

(** * Properties *)

(** ** [split] and the words of a text *)

Section SplitFacts.

Import Str.

Lemma split_from_nil cur : cur <> [] -> split_from cur [] = [cur].
Proof. by destruct cur. Qed.

Lemma split_from_space cur c x :
  Char.isspace c = true -> cur <> [] ->
  split_from cur (c :: x) = cur :: split_from [] x.
Proof. intros Hc Hcur. simpl. rewrite Hc. by destruct cur. Qed.

Lemma split_from_blank s x : blank s -> split_from [] (s ++ x) = split_from [] x.
Proof.
  unfold blank. induction s as [|c s IH]; simpl; [done|].
  intros [Hc Hs]%andb_prop. rewrite Hc. auto.
Qed.

Lemma split_from_word cur w x :
  forallb (fun c => negb (Char.isspace c)) w = true ->
  split_from cur (w ++ x) = split_from (cur ++ w) x.
Proof.
  revert cur. induction w as [|c w IH]; intros cur; simpl.
  - by rewrite app_nil_r.
  - intros [Hc Hw]%andb_prop. apply negb_true_iff in Hc. rewrite Hc.
    rewrite IH by done. by rewrite <- app_assoc.
Qed.

(** [split] returns the words of any text laid out as [words_of]
    describes. *)
Lemma split_words_of x ws : words_of x ws -> split x = ws.
Proof.
  unfold split. induction 1 as [s Hs|s w Hs [Hne Hw]|s w c x ws Hs [Hne Hw] Hc _ IH].
  - rewrite <- (app_nil_r s). by rewrite split_from_blank.
  - rewrite split_from_blank by done.
    pose proof (split_from_word [] w [] Hw) as E.
    rewrite app_nil_r in E. rewrite E. by apply split_from_nil.
  - rewrite split_from_blank by done. rewrite split_from_word by done.
    simpl (_ ++ _). rewrite split_from_space by done. by rewrite IH.
Qed.

Lemma words_of_space c x ws :
  Char.isspace c = true -> words_of x ws -> words_of (c :: x) ws.
Proof.
  intros Hc H. assert (Hb : forall s, blank s -> blank (c :: s)).
  { intros s Hs. unfold blank in *. simpl. by rewrite Hc. }
  destruct H as [s Hs|s w Hs Hw|s w c' x ws Hs Hw Hc' H].
  - apply words_none; auto.
  - apply (words_end (c :: s)); auto.
  - apply (words_more (c :: s)); auto.
Qed.

Lemma words_of_split_from cur x :
  forallb (fun c => negb (Char.isspace c)) cur = true ->
  words_of (cur ++ x) (split_from cur x).
Proof.
  revert cur. induction x as [|c x IH]; intros cur Hcur.
  - rewrite app_nil_r. destruct cur as [|a cur].
    + apply words_none. done.
    + apply (words_end [] (a :: cur)); [done|]. by split.
  - simpl. destruct (Char.isspace c) eqn:Hc.
    + destruct cur as [|a cur].
      * simpl. apply words_of_space; [done|]. by apply (IH []).
      * apply (words_more [] (a :: cur) c x); [done| by split |done|].
        by apply (IH []).
    + replace (cur ++ c :: x) with ((cur ++ [c]) ++ x) by by rewrite <- app_assoc.
      apply IH. rewrite forallb_app, Hcur. simpl. by rewrite Hc.
Qed.

(** Every text has a list of words, the one [split] returns, and no
    other. *)
Lemma words_of_split x : words_of x (split x).
Proof. by apply (words_of_split_from []). Qed.

Lemma words_of_unique x ws ws' : words_of x ws -> words_of x ws' -> ws = ws'.
Proof. intros H H'. by rewrite <- (split_words_of _ _ H), <- (split_words_of _ _ H'). Qed.

(** Words written with a space in between are the words of the text. *)
Lemma words_of_spaced ws : Forall is_word ws -> words_of (spaced ws) ws.
Proof.
  induction 1 as [|w ws Hw Hws IH].
  - by apply words_none.
  - destruct ws as [|w' ws].
    + by apply (words_end [] w).
    + by apply (words_more [] w " " (spaced (w' :: ws)) (w' :: ws)).
Qed.

End SplitFacts.

(** C5.  [word_count] holds exactly when the text has at most 100
    whitespace-delimited words: it holds for a response of exactly 100
    words and fails for one of 101 words. *)
Theorem word_count_iff_at_most_100_words (x : str) (ws : list str) :
  words_of x ws ->
  (word_count x = true <-> length ws <= 100) /\
  (length ws = 100 -> word_count x = true) /\
  (length ws = 101 -> word_count x = false).
Proof.
  intros H. unfold word_count. rewrite (split_words_of _ _ H).
  split; [|split].
  - apply Nat.leb_le.
  - intros ->. done.
  - intros ->. done.
Qed.

Lemma word_count_iff_at_most_100_words_witness :
  word_count (spaced hundred_and_one_words) = false /\
  word_count (spaced (take 100 hundred_and_one_words)) = true.
Proof.
  assert (Hw : is_word "word") by (by split).
  assert (H101 : Forall is_word hundred_and_one_words)
    by (by apply Forall_replicate).
  assert (H100 : Forall is_word (take 100 hundred_and_one_words))
    by (by apply Forall_take).
  split.
  - apply (word_count_iff_at_most_100_words _ _ (words_of_spaced _ H101)). reflexivity.
  - apply (word_count_iff_at_most_100_words _ _ (words_of_spaced _ H100)). reflexivity.
Defined.

(** ** Substrings and case *)

Section SubstringFacts.

Import Str.

Lemma eqb_true a b : Char.eqb a b = true <-> a = b.
Proof. unfold Char.eqb. apply bool_decide_eq_true. Qed.

Lemma startswith_spec w x : startswith w x = true <-> exists post, x = w ++ post.
Proof.
  revert x. induction w as [|a w IH]; intros x; simpl.
  - split; eauto.
  - destruct x as [|b x].
    + split; [done|]. by intros [post ?].
    + rewrite andb_true_iff, eqb_true, IH. split.
      * intros [-> [post ->]]. eauto.
      * intros [post [= -> ->]]. eauto.
Qed.

Lemma contains_spec w x :
  contains w x = true <-> exists pre post, x = pre ++ w ++ post.
Proof.
  induction x as [|b x IH].
  - simpl. rewrite orb_false_r, startswith_spec. split.
    + intros [post E]. by exists [], post.
    + intros [pre [post E]]. destruct pre; [by exists post|done].
  - cbn [contains]. rewrite orb_true_iff, startswith_spec, IH. split.
    + intros [[post E]|[pre [post E]]].
      * by exists [], post.
      * exists (b :: pre), post. by rewrite E.
    + intros [pre [post E]]. destruct pre as [|b' pre].
      * left. by exists post.
      * right. exists pre, post. by injection E.
Qed.

Lemma lower_app x y : lower (x ++ y) = lower x ++ lower y.
Proof. apply map_app. Qed.

Lemma tolower_not_upper c : Char.isupper (Char.tolower c) = false.
Proof. by destruct c as [[] [] [] [] [] [] [] []]. Qed.

Lemma tolower_idemp c : Char.tolower (Char.tolower c) = Char.tolower c.
Proof. unfold Char.tolower at 1. by rewrite tolower_not_upper. Qed.

Lemma lower_idemp x : lower (lower x) = lower x.
Proof.
  unfold lower. rewrite map_map. apply map_ext. intros c. apply tolower_idemp.
Qed.

(** The test of the cell, [w in x.lower()], for a word written in
    lower case. *)
Lemma contains_lower_iff w x :
  lower w = w ->
  contains w (lower x) = true <-> occurs_ignoring_case w x.
Proof.
  intros Hw. rewrite contains_spec. unfold occurs_ignoring_case. split.
  - intros [p [q E]].
    apply map_eq_app in E as [pre [r [-> [Hp E]]]].
    apply map_eq_app in E as [s [post [-> [Hs Hq]]]].
    exists pre, s, post. split; [done|]. by rewrite Hw.
  - intros [pre [s [post [-> Hs]]]].
    exists (lower pre), (lower post).
    by rewrite !lower_app, Hs, Hw.
Qed.

(** A word with a capital letter is never found in [x.lower()]: the
    cell relies on its literals being written in lower case. *)
Lemma contains_lower_capital w x :
  lower w <> w -> contains w (lower x) = false.
Proof.
  intros Hw. apply not_true_is_false. rewrite contains_spec.
  intros [p [q E]]. apply Hw.
  assert (lower (lower x) = lower x) as E' by apply lower_idemp.
  rewrite E, !lower_app in E'.
  apply app_inj_1 in E' as [_ E']; [|apply length_map].
  by apply app_inj_1 in E' as [? _]; [|apply length_map].
Qed.

Lemma excluded_words_lower w : In w excluded_words -> lower w = w.
Proof. simpl. intros [<-|[<-|[<-|[]]]]; reflexivity. Qed.

Lemma no_excluded_words_spec x :
  no_excluded_words x = true <->
  forall w, In w excluded_words -> ~ occurs_ignoring_case w x.
Proof.
  unfold no_excluded_words. rewrite forallb_forall. split.
  - intros H w Hin Hocc. specialize (H w Hin). apply negb_true_iff in H.
    apply (contains_lower_iff w x (excluded_words_lower w Hin)) in Hocc.
    congruence.
  - intros H w Hin. apply negb_true_iff, not_true_is_false. intros Hc.
    apply (H w Hin). by apply (contains_lower_iff w x (excluded_words_lower w Hin)).
Qed.

End SubstringFacts.

(** C3.  [no_excluded_words] holds exactly when none of the forbidden
    words occurs in the response up to case; an occurrence of a
    forbidden word in any casing makes it fail, and so does the
    response of the example. *)
Theorem no_excluded_words_iff_no_occurrence (x : str) :
  (no_excluded_words x = true <->
   forall w, In w excluded_words -> ~ occurs_ignoring_case w x) /\
  (forall w pre s post,
     In w excluded_words -> Str.lower s = Str.lower w ->
     x = pre ++ s ++ post -> no_excluded_words x = false) /\
  no_excluded_words "This uses a Robot." = false.
Proof.
  split; [apply no_excluded_words_spec|]. split; [|reflexivity].
  intros w pre s post Hin Hs ->. apply not_true_is_false.
  rewrite no_excluded_words_spec. intros H. apply (H w Hin).
  by exists pre, s, post.
Qed.

Lemma no_excluded_words_iff_no_occurrence_witness :
  no_excluded_words "a ROBOT, a Human-Like one" = false /\
  no_excluded_words "a machine that learns" = true.
Proof.
  split.
  - apply (proj1 (proj2 (no_excluded_words_iff_no_occurrence "a ROBOT, a Human-Like one"))
             "robot" "a " "ROBOT" ", a Human-Like one");
      [simpl; tauto | reflexivity | reflexivity].
  - apply (proj1 (no_excluded_words_iff_no_occurrence "a machine that learns")).
    intros w Hin Hocc.
    apply (contains_lower_iff w _ (excluded_words_lower w Hin)) in Hocc.
    simpl in Hin. destruct Hin as [<-|[<-|[<-|[]]]]; vm_compute in Hocc; discriminate.
Defined.

(** ** Whole-word matches *)

Section SearchFacts.

Import Str Re.

Lemma last_or_cons prev a t : last_or prev (a :: t) = last_or (Some a) t.
Proof.
  unfold last_or. destruct t as [|b t]; [done|]. rewrite last_cons_cons.
  destruct (last (b :: t)) eqn:E; [done|]. by apply last_None in E.
Qed.

Lemma last_or_None t : last_or None t = last t.
Proof. unfold last_or. by destruct (last t). Qed.

Lemma literal_spec w prev s k :
  match_here ignore_case (literal w) prev s k = true <->
  exists t s', s = t ++ s' /\ lower t = lower w /\ k (last_or prev t) s' = true.
Proof.
  revert prev s. induction w as [|c w IH]; intros prev s; simpl.
  - split.
    + intros Hk. by exists [], s.
    + intros [t [s' [-> [Ht Hk]]]]. by destruct t.
  - destruct s as [|a s].
    + split; [done|]. intros [t [s' [E [Ht _]]]]. by destruct t.
    + rewrite andb_true_iff, IH. unfold char_match. simpl. rewrite eqb_true. split.
      * intros [Ha [t [s' [-> [Ht Hk]]]]]. exists (a :: t), s'.
        rewrite last_or_cons. simpl. by rewrite Ha, Ht.
      * intros [t [s' [E [Ht Hk]]]]. destruct t as [|a' t]; [done|].
        injection E as <- ->. injection Ht as Ha Ht.
        rewrite last_or_cons in Hk. split; [done|]. by exists t, s'.
Qed.

Lemma search_from_spec fl r prev s :
  search_from fl r prev s = true <->
  exists pre rest,
    s = pre ++ rest /\
    match_here fl r (last_or prev pre) rest (fun _ _ => true) = true.
Proof.
  revert prev. induction s as [|a s IH]; intros prev; cbn [search_from].
  - rewrite orb_false_r. split.
    + intros H. by exists [], [].
    + intros [pre [rest [E H]]]. symmetry in E.
      apply app_eq_nil in E as [-> ->]. done.
  - rewrite orb_true_iff, IH. split.
    + intros [H|[pre [rest [-> H]]]].
      * by exists [], (a :: s).
      * exists (a :: pre), rest. by rewrite last_or_cons.
    + intros [pre [rest [E H]]]. destruct pre as [|a' pre].
      * left. simpl in E. by subst rest.
      * right. injection E as <- ->. rewrite last_or_cons in H. by exists pre, rest.
Qed.

Lemma isword_tolower c : Char.isword (Char.tolower c) = Char.isword c.
Proof. by destruct c as [[] [] [] [] [] [] [] []]. Qed.

Lemma isword_opt_tolower o : isword_opt (Char.tolower <$> o) = isword_opt o.
Proof. destruct o; simpl; [apply isword_tolower|done]. Qed.

Lemma isword_head_lower t : isword_opt (head (lower t)) = isword_opt (head t).
Proof. destruct t; simpl; [done|apply isword_tolower]. Qed.

Lemma isword_last_lower t : isword_opt (last (lower t)) = isword_opt (last t).
Proof. unfold lower. change (map Char.tolower t) with (Char.tolower <$> t).
  by rewrite fmap_last, isword_opt_tolower. Qed.

Lemma boundary_before t w prev post :
  lower t = lower w -> wordlike w ->
  at_boundary prev (t ++ post) = negb (isword_opt prev).
Proof.
  intros E [Hh _]. unfold at_boundary.
  assert (isword_opt (head (t ++ post)) = true) as ->.
  { rewrite <- (isword_head_lower w), <- E, isword_head_lower in Hh.
    destruct t; [done|]. done. }
  by destruct (isword_opt prev).
Qed.

Lemma boundary_after t w prev post :
  lower t = lower w -> wordlike w ->
  at_boundary (last_or prev t) post = negb (isword_opt (head post)).
Proof.
  intros E [_ Hl]. unfold at_boundary.
  assert (isword_opt (last_or prev t) = true) as ->.
  { rewrite <- (isword_last_lower w), <- E, isword_last_lower in Hl.
    unfold last_or. by destruct (last t). }
  done.
Qed.

(** A match of [\bw\b], ignoring case, at the position after [pre]. *)
Lemma whole_word_here w pre rest :
  wordlike w ->
  at_boundary (last pre) rest &&
    match_here ignore_case (literal w) (last pre) rest
      (fun p s' => at_boundary p s' && true) = true <->
  exists s post,
    rest = s ++ post /\ lower s = lower w /\
    isword_opt (last pre) = false /\ isword_opt (head post) = false.
Proof.
  intros Hw. rewrite andb_true_iff, literal_spec. split.
  - intros [Hb [t [post [-> [Ht Ha]]]]].
    rewrite (boundary_before t w) in Hb by done.
    rewrite andb_true_r, (boundary_after t w) in Ha by done.
    exists t, post. by rewrite <- !negb_true_iff.
  - intros [t [post [-> [Ht [Hb Ha]]]]].
    rewrite (boundary_before t w) by done. rewrite Hb. split; [done|].
    exists t, post. rewrite andb_true_r, (boundary_after t w) by done.
    by rewrite Ha.
Qed.

Lemma analogy_search_spec x :
  search analogy_pattern x ignore_case = true <->
  occurs_as_whole_word "as" x \/ occurs_as_whole_word "like" x.
Proof.
  unfold search. rewrite search_from_spec. unfold occurs_as_whole_word.
  assert (Has : wordlike "as") by done.
  assert (Hlike : wordlike "like") by done.
  split.
  - intros [pre [rest [-> H]]]. rewrite last_or_None in H.
    cbn [analogy_pattern match_here] in H.
    rewrite andb_orb_distrib_r, orb_true_iff in H.
    destruct H as [H|H]; [left|right].
    + apply (whole_word_here "as" pre rest Has) in H as [s [post [-> ?]]]. by exists pre, s, post.
    + apply (whole_word_here "like" pre rest Hlike) in H as [s [post [-> ?]]]. by exists pre, s, post.
  - intros [H|H]; destruct H as [pre [s [post [-> H]]]];
      exists pre, (s ++ post); (split; [done|]); rewrite last_or_None;
      cbn [analogy_pattern match_here];
      rewrite andb_orb_distrib_r, orb_true_iff; [left|right].
    + apply (whole_word_here "as" pre _ Has). by exists s, post.
    + apply (whole_word_here "like" pre _ Hlike). by exists s, post.
Qed.

Lemma no_analogies_spec x :
  no_analogies x = true <->
  ~ occurs_as_whole_word "as" x /\ ~ occurs_as_whole_word "like" x.
Proof.
  unfold no_analogies. rewrite negb_true_iff, <- not_true_iff_false.
  fold ignore_case. rewrite analogy_search_spec. tauto.
Qed.

End SearchFacts.

(** C4.  [no_analogies] holds exactly when neither [as] nor [like]
    occurs in the response as a whole word, up to case; it fails on
    "It behaves like water" and holds on "Likewise, it performs well". *)
Theorem no_analogies_iff_no_whole_word (x : str) :
  (no_analogies x = true <->
   ~ occurs_as_whole_word "as" x /\ ~ occurs_as_whole_word "like" x) /\
  no_analogies "It behaves like water" = false /\
  no_analogies "Likewise, it performs well" = true.
Proof. split; [apply no_analogies_spec|]. by split. Qed.

(** ** Dictionaries *)

Section DictFacts.

Context {V : Type}.

Lemma setitem_new k (v : V) d : k ∉ keys d -> setitem k v d = d ++ [(k, v)].
Proof.
  induction d as [|[k' v'] d IH]; simpl; [done|].
  intros [Hne Hd]%not_elem_of_cons. rewrite decide_False by done.
  by rewrite IH.
Qed.

Lemma keys_setitem k (v : V) d :
  keys (setitem k v d) = if decide (k ∈ keys d) then keys d else keys d ++ [k].
Proof.
  induction d as [|[k' v'] d IH]; simpl; [done|].
  destruct (decide (k = k')) as [->|Hne]; simpl.
  - rewrite decide_True; [done|]. apply elem_of_cons. by left.
  - rewrite IH. destruct (decide (k ∈ keys d)) as [Hin|Hnin].
    + rewrite decide_True; [done|]. apply elem_of_cons. by right.
    + rewrite decide_False; [done|]. intros [?|?]%elem_of_cons; done.
Qed.

(** Assignment keeps a dictionary a dictionary. *)
Lemma setitem_NoDup k (v : V) d : NoDup (keys d) -> NoDup (keys (setitem k v d)).
Proof.
  intros Hd. rewrite keys_setitem. destruct (decide (k ∈ keys d)); [done|].
  apply NoDup_app. split; [done|]. split; [|apply NoDup_singleton].
  intros k' Hk' ->%list_elem_of_singleton. done.
Qed.

Lemma dict_display_NoDup (entries : list (str * V)) : NoDup (keys (dict_display entries)).
Proof.
  unfold dict_display.
  assert (forall d : dict V, NoDup (keys d) ->
    NoDup (keys (fold_left (fun d kv => setitem (fst kv) (snd kv) d) entries d))) as H.
  { induction entries as [|[k v] entries IH]; intros d Hd; simpl; [done|].
    apply IH. by apply setitem_NoDup. }
  apply H. constructor.
Qed.

End DictFacts.

(** ** The heap *)

Lemma lookup_alloc_old (h : gmap loc obj) l o o' :
  h !! l = Some o -> <[fresh (dom h) := o']> h !! l = Some o.
Proof.
  intros H. rewrite lookup_insert_ne; [done|]. intros E.
  apply (is_fresh (dom h)). rewrite E. apply elem_of_dom. by exists o.
Qed.

(** Lookup of an object allocated earlier, under later allocations. *)
Ltac heap_lookup :=
  cbn [heap fst snd];
  repeat first [apply lookup_insert_eq | apply lookup_alloc_old].

(** ** What [evaluate_output] computes *)

Section EvaluateFacts.

Lemma load_eq st l o : heap st !! l = Some o -> load l st = (st, Ok o).
Proof. intros H. unfold load. by rewrite H. Qed.

Lemma get_str_eq st l s : heap st !! l = Some (OStr s) -> get_str l st = (st, Ok s).
Proof. intros H. unfold get_str, bind. by rewrite (load_eq _ _ _ H). Qed.

Lemma items_eq st l d : heap st !! l = Some (OChecks d) -> items l st = (st, Ok d).
Proof. intros H. unfold items, bind. by rewrite (load_eq _ _ _ H). Qed.

Lemma get_bools_eq st l d : heap st !! l = Some (OBools d) -> get_bools l st = (st, Ok d).
Proof. intros H. unfold get_bools, bind. by rewrite (load_eq _ _ _ H). Qed.

Lemma values_eq st l d :
  heap st !! l = Some (OBools d) -> values l st = (st, Ok (map snd d)).
Proof. intros H. unfold values, bind. by rewrite (get_bools_eq _ _ _ H). Qed.

Lemma assign_eq st l k b d :
  heap st !! l = Some (OBools d) ->
  assign l k b st = (State (<[l := OBools (setitem k b d)]> (heap st)) (out st), Ok tt).
Proof. intros H. unfold assign, bind. by rewrite (get_bools_eq _ _ _ H). Qed.

Lemma state_insert_id st l o :
  heap st !! l = Some o -> State (<[l := o]> (heap st)) (out st) = st.
Proof. intros H. destruct st as [h tr]. simpl in *. by rewrite insert_id. Qed.

Lemma for_each_checks output results x entries : forall st acc,
  heap st !! output = Some (OStr x) ->
  heap st !! results = Some (OBools acc) ->
  for_each entries (fun '(constraint, check_func) =>
    x <- get_str output ;;
    b <- lift (check_func x) ;;
    assign results constraint b) st =
  (State (<[results := OBools (fst (record_checks x entries acc))]> (heap st)) (out st),
   loop_outcome (snd (record_checks x entries acc))).
Proof.
  induction entries as [|[k f] entries IH]; intros st acc Hout Hres.
  - simpl. unfold ret. by rewrite state_insert_id.
  - cbn [for_each record_checks]. unfold bind at 1 2 3.
    rewrite (get_str_eq _ _ _ Hout). unfold lift.
    destruct (f x) as [b|e]; simpl.
    + rewrite (assign_eq _ _ _ _ _ Hres).
      assert (output <> results) as Hne by (intros ->; congruence).
      rewrite (IH _ (setitem k b acc)); simpl.
      * by rewrite insert_insert_eq.
      * by rewrite lookup_insert_ne.
      * by rewrite lookup_insert_eq.
    + by rewrite state_insert_id.
Qed.

(** The result of a call on a response [x] and a dictionary [C]: a
    fresh dictionary filled by the loop, nothing else touched. *)
Lemma evaluate_output_eq st output cs x C :
  heap st !! output = Some (OStr x) ->
  heap st !! cs = Some (OChecks C) ->
  let l := fresh (dom (heap st)) in
  evaluate_output output cs st =
  (State (<[l := OBools (fst (record_checks x C []))]> (heap st)) (out st),
   match snd (record_checks x C []) with None => Ok l | Some e => Raised e end).
Proof.
  intros Hout Hcs l. unfold evaluate_output, bind at 1 2, alloc. fold l.
  assert (Hl : heap st !! l = None).
  { apply not_elem_of_dom. apply is_fresh. }
  assert (l <> output) by (intros ->; congruence).
  assert (l <> cs) by (intros ->; congruence).
  rewrite (items_eq _ _ C) by (simpl; by rewrite lookup_insert_ne).
  unfold bind. rewrite (for_each_checks output l x C _ []); simpl.
  - rewrite insert_insert_eq. by destruct (snd (record_checks x C [])).
  - by rewrite lookup_insert_ne.
  - by rewrite lookup_insert_eq.
Qed.

Lemma record_checks_total x C : forall acc d,
  verdicts x C d -> NoDup (keys acc ++ keys C) ->
  record_checks x C acc = (acc ++ d, None).
Proof.
  induction C as [|[k f] C IH]; intros acc d Hd Hnd.
  - inversion Hd; subst. simpl. by rewrite app_nil_r.
  - inversion Hd as [|? [k' b] ? d' [Hk Hf] Hd']; subst. simpl in *. subst k'.
    rewrite Hf. apply NoDup_app in Hnd as (Hacc & Hdisj & Hkc).
    rewrite setitem_new.
    2:{ intros Hin. apply (Hdisj k Hin). by left. }
    rewrite (IH _ d' Hd').
    + by rewrite <- app_assoc.
    + unfold keys. rewrite map_app. simpl. rewrite <- app_assoc. simpl.
      apply NoDup_app. split; [done|]. split; [|done]. done.
Qed.

Lemma verdicts_keys x C d : verdicts x C d -> keys d = keys C.
Proof.
  induction 1 as [|[k f] [k' b] C d [Hk _] _ IH]; simpl in *; [done|].
  by rewrite Hk, IH.
Qed.

(** When every callable returns on [x] there is a dictionary of
    verdicts. *)
Lemma verdicts_exist x C :
  (forall k f, In (k, f) C -> exists b, f x = Ok b) -> exists d, verdicts x C d.
Proof.
  induction C as [|[k f] C IH]; intros H.
  - exists []. constructor.
  - destruct (H k f) as [b Hb]; [by left|].
    destruct IH as [d Hd]; [intros k' f' Hin; apply (H k' f'); by right|].
    exists ((k, b) :: d). by constructor.
Qed.

Lemma record_checks_constraints x :
  record_checks x constraints_display [] = (evaluation x, None).
Proof. reflexivity. Qed.

End EvaluateFacts.

(** ** Frame of [evaluate_output] *)

Section FrameFacts.

Lemma within_ret L {A} (a : A) : writes_within L (ret a).
Proof. by intros st. Qed.

Lemma within_raise L {A} e : writes_within L (@raise A e).
Proof. by intros st. Qed.

Lemma within_lift L {A} (r : result A) : writes_within L (lift r).
Proof. by intros st. Qed.

Lemma within_load L l : writes_within L (load l).
Proof. intros st. unfold load. by destruct (heap st !! l). Qed.

Lemma within_store (L : loc -> Prop) l o : L l -> writes_within L (store l o).
Proof.
  intros Hl st. split; [done|]. intros l' Hl'. simpl.
  apply lookup_insert_ne. by intros ->.
Qed.

Lemma within_bind L {A B} (m : M A) (k : A -> M B) :
  writes_within L m -> (forall a, writes_within L (k a)) ->
  writes_within L (bind m k).
Proof.
  intros Hm Hk st. unfold bind. specialize (Hm st).
  destruct (m st) as [st' [a|e]]; simpl in *; [|done].
  destruct (Hk a st') as [Ho Hh]. destruct Hm as [Ho' Hh'].
  split; [congruence|]. intros l Hl. rewrite Hh by done. by apply Hh'.
Qed.

Lemma within_for_each L {A} (xs : list A) (body : A -> M unit) :
  (forall x, writes_within L (body x)) -> writes_within L (for_each xs body).
Proof.
  intros Hbody. induction xs as [|x xs IH]; simpl.
  - apply within_ret.
  - apply within_bind; [apply Hbody|]. by intros _.
Qed.

(** A read: a load and a test of the kind of object found. *)
Local Ltac within_read :=
  apply within_bind; [apply within_load|];
  intros [s|d|d]; first [apply within_ret | apply within_raise].

Lemma within_get_str L l : writes_within L (get_str l).
Proof. within_read. Qed.

Lemma within_items L l : writes_within L (items l).
Proof. within_read. Qed.

Lemma within_get_bools L l : writes_within L (get_bools l).
Proof. within_read. Qed.

Lemma within_assign (L : loc -> Prop) l k b : L l -> writes_within L (assign l k b).
Proof.
  intros Hl. apply within_bind; [apply within_get_bools|].
  intros d. by apply within_store.
Qed.

Create HintDb frame.
#[local] Hint Resolve within_ret within_raise within_lift within_load
  within_get_str within_items within_get_bools within_assign
  within_bind within_for_each : frame.

(** Whatever its arguments refer to, and whether or not a callable
    raises, a call writes only to the dictionary it creates. *)
Lemma evaluate_output_unchanged output cs st :
  unchanged st (fst (evaluate_output output cs st)).
Proof.
  unfold evaluate_output, bind at 1, alloc.
  set (l := fresh (dom (heap st))).
  set (st1 := State (<[l := OBools []]> (heap st)) (out st)).
  set (rest := bind (items cs) _).
  assert (Hrest : writes_within (eq l) rest).
  { apply within_bind; [auto with frame|]. intros entries.
    apply within_bind; [|auto with frame].
    apply within_for_each. intros [k f]. auto 6 with frame. }
  destruct (Hrest st1) as [Ho Hh]. split; [by rewrite Ho|].
  intros l' o Hl'. rewrite Hh.
  - simpl. rewrite lookup_insert_ne; [done|]. intros <-.
    apply (is_fresh (dom (heap st))). apply elem_of_dom. by exists o.
  - intros <-. apply (is_fresh (dom (heap st))). apply elem_of_dom. by exists o.
Qed.

Lemma returned_evaluate_output st output cs x C :
  heap st !! output = Some (OStr x) ->
  heap st !! cs = Some (OChecks C) ->
  returned (evaluate_output output cs st) =
    match snd (record_checks x C []) with
    | None => Ok (fst (record_checks x C []))
    | Some e => Raised e
    end.
Proof.
  intros Hout Hcs. rewrite (evaluate_output_eq _ _ _ _ _ Hout Hcs).
  unfold returned. simpl. destruct (snd (record_checks x C [])); [done|].
  simpl. by rewrite lookup_insert_eq.
Qed.

End FrameFacts.

(** C6.  For a response [x] (the empty one included) and a dictionary
    [C] of callables that return on [x], a call returns a dictionary
    with exactly the names of [C], one truth value for each; with the
    three constraints of the cell it never raises and returns their
    three verdicts. *)
Theorem evaluate_output_one_entry_per_constraint
    (st : state) (output cs : loc) (x : str) (C : dict check_func) :
  heap st !! output = Some (OStr x) ->
  heap st !! cs = Some (OChecks C) ->
  (NoDup (keys C) ->
   (forall k f, In (k, f) C -> exists b, f x = Ok b) ->
   exists d, returned (evaluate_output output cs st) = Ok d /\
             keys d = keys C /\ length d = length C /\ verdicts x C d) /\
  (C = constraints_display ->
   returned (evaluate_output output cs st) = Ok (evaluation x)).
Proof.
  intros Hout Hcs. rewrite (returned_evaluate_output _ _ _ _ _ Hout Hcs). split.
  - intros Hnd Htotal. destruct (verdicts_exist x C Htotal) as [d Hd].
    rewrite (record_checks_total x C [] d Hd Hnd). simpl.
    exists d. split; [done|]. split; [by apply (verdicts_keys x)|].
    split; [|done]. symmetry. by apply (Forall2_length _ _ _ Hd).
  - intros ->. by rewrite record_checks_constraints.
Qed.

Lemma evaluate_output_one_entry_per_constraint_witness :
  (exists d,
     returned (evaluate_output 1%positive 2%positive empty_reply_state) = Ok d /\
     keys d = ["word_count"; "no_excluded_words"; "no_analogies"] /\
     length d = 3) /\
  returned (evaluate_output 1%positive 2%positive empty_reply_state) =
    Ok [("word_count", true); ("no_excluded_words", true); ("no_analogies", true)].
Proof.
  destruct (evaluate_output_one_entry_per_constraint
              empty_reply_state 1%positive 2%positive "" constraints_display
              eq_refl eq_refl) as [Hany Hcell].
  split.
  - destruct Hany as (d & Hd & Hk & Hn & _).
    + apply dict_display_NoDup.
    + simpl. intros k f [[= <- <-]|[[= <- <-]|[[= <- <-]|[]]]]; by eexists.
    + by exists d.
  - by apply Hcell.
Defined.

(** C10.  A call of [evaluate_output] prints nothing, calls no model and
    leaves every existing object as it was, the response and the
    dictionary of constraints among them; what it returns is determined
    by the response text and the constraints: a second call, and a call
    in any other state on the same text and constraints, return an equal
    dictionary (or raise the same exception). *)
Theorem evaluate_output_deterministic_effect_free
    (st : state) (output cs : loc) (x : str) (C : dict check_func) :
  heap st !! output = Some (OStr x) ->
  heap st !! cs = Some (OChecks C) ->
  let first := evaluate_output output cs st in
  unchanged st (fst first) /\
  heap (fst first) !! output = Some (OStr x) /\
  heap (fst first) !! cs = Some (OChecks C) /\
  returned (evaluate_output output cs (fst first)) = returned first /\
  (forall st' output' cs',
     heap st' !! output' = Some (OStr x) ->
     heap st' !! cs' = Some (OChecks C) ->
     returned (evaluate_output output' cs' st') = returned first).
Proof.
  intros Hout Hcs first.
  pose proof (evaluate_output_unchanged output cs st) as Hun. fold first in Hun.
  destruct Hun as [Htr Hheap].
  assert (Hother : forall st' output' cs',
     heap st' !! output' = Some (OStr x) ->
     heap st' !! cs' = Some (OChecks C) ->
     returned (evaluate_output output' cs' st') = returned first).
  { intros st' output' cs' Hout' Hcs'. unfold first.
    by rewrite (returned_evaluate_output _ _ _ _ _ Hout Hcs),
               (returned_evaluate_output _ _ _ _ _ Hout' Hcs'). }
  split; [by split|]. split; [by apply Hheap|]. split; [by apply Hheap|].
  split; [|done]. apply Hother; by apply Hheap.
Qed.

Lemma evaluate_output_deterministic_effect_free_witness :
  let first := evaluate_output 1%positive 2%positive empty_reply_state in
  heap (fst first) !! 2%positive = Some (OChecks constraints_display) /\
  returned (evaluate_output 1%positive 2%positive (fst first)) = returned first.
Proof.
  intros first.
  destruct (evaluate_output_deterministic_effect_free
              empty_reply_state 1%positive 2%positive "" constraints_display
              eq_refl eq_refl) as (_ & _ & Hcs & Hagain & _).
  split; [exact Hcs | exact Hagain].
Defined.

(** ** The cell, step by step *)

Section CellFacts.

Variable llm : list event -> str -> result str.

Lemma format_base : format constraint_prompt base_parameters = Ok initial_prompt.
Proof. reflexivity. Qed.

Lemma format_refined :
  format constraint_prompt refined_parameters = Ok refined_prompt_text.
Proof. reflexivity. Qed.

Lemma get_response_ok st prompt r :
  llm (out st) prompt = Ok r ->
  get_response llm prompt st =
    (State (<[fresh (dom (heap st)) := OStr r]> (heap st))
           (out st ++ [Invoke prompt (Ok r)]),
     Ok (fresh (dom (heap st)))).
Proof. intros H. unfold get_response, bind, invoke, alloc. by rewrite H. Qed.

Lemma get_response_raised st prompt e :
  llm (out st) prompt = Raised e ->
  get_response llm prompt st = (failed st prompt e, Raised e).
Proof. intros H. unfold get_response, bind, invoke. by rewrite H. Qed.

Lemma run_cell_eq st : run_cell llm st = cell_outcome llm st.
Proof.
  unfold run_cell, cell_outcome.
  unfold bind at 1. rewrite format_base. unfold lift at 1.
  unfold bind at 1.
  destruct (llm (out st) initial_prompt) as [r|e] eqn:Hr.
  2:{ by rewrite (get_response_raised _ _ _ Hr). }
  rewrite (get_response_ok _ _ _ Hr).
  set (l1 := fresh (dom (heap st))).
  set (h1 := <[l1 := OStr r]> (heap st)).
  unfold bind at 1. rewrite (get_str_eq _ l1 r) by heap_lookup.
  unfold bind at 1. unfold print at 1. cbn [heap out].
  unfold bind at 1. unfold alloc at 1. cbn [heap out].
  set (l2 := fresh (dom h1)).
  set (h2 := <[l2 := OChecks constraints_display]> h1).
  unfold bind at 1.
  rewrite (evaluate_output_eq _ l1 l2 r constraints_display);
    [|heap_lookup|heap_lookup].
  rewrite record_checks_constraints. cbn [fst snd heap out].
  set (l3 := fresh (dom h2)).
  set (h3 := <[l3 := OBools (evaluation r)]> h2).
  unfold bind at 1. rewrite (get_bools_eq _ l3 (evaluation r)) by heap_lookup.
  unfold bind at 1. unfold print at 1. cbn [heap out].
  unfold bind at 1. rewrite (values_eq _ l3 (evaluation r)) by heap_lookup.
  change (forallb id (map snd (evaluation r))) with (all_true (evaluation r)).
  unfold reached_if. fold l1 h1 l2 h2 l3 h3.
  rewrite <- !app_assoc. cbn [app].
  destruct (all_true (evaluation r)); cbn [negb]; [reflexivity|].
  unfold bind at 1. rewrite format_refined. unfold lift at 1.
  unfold bind at 1.
  set (st3 := State h3 _).
  destruct (llm (out st3) refined_prompt_text) as [r2|e] eqn:Hr2.
  2:{ rewrite (get_response_raised _ _ _ Hr2). reflexivity. }
  rewrite (get_response_ok _ _ _ Hr2).
  set (l4 := fresh (dom (heap st3))).
  set (h4 := <[l4 := OStr r2]> (heap st3)).
  unfold bind at 1. rewrite (get_str_eq _ l4 r2) by heap_lookup.
  unfold bind at 1. unfold print at 1. cbn [heap out].
  unfold bind at 1.
  rewrite (evaluate_output_eq _ l4 l2 r2 constraints_display);
    [|heap_lookup|heap_lookup].
  rewrite record_checks_constraints. cbn [fst snd heap out].
  set (l5 := fresh (dom h4)).
  set (h5 := <[l5 := OBools (evaluation r2)]> h4).
  unfold bind at 1. rewrite (get_bools_eq _ l5 (evaluation r2)) by heap_lookup.
  unfold bind at 1. unfold print at 1. cbn [heap out].
  unfold ret, reached_end. fold l4 h4 l5 h5.
  rewrite <- !app_assoc. reflexivity.
Qed.

End CellFacts.

(** The lines printed by the recorded run are those of the outputs of
    the notebook. *)
Example recorded_run_prints :
  omap (fun e => match e with Print args => Some args | Invoke _ _ => None end)
       (out (fst (run_cell recorded_model (State ∅ [])))) =
    [ [PStr recorded_response];
      [PStr "Evaluation results:";
       PDict [("word_count", true); ("no_excluded_words", true); ("no_analogies", false)]];
      [PStr ([LF] ++ "Refined response:" ++ [LF]); PStr recorded_refined_response];
      [PStr ([LF] ++ "Refined evaluation results:");
       PDict [("word_count", true); ("no_excluded_words", true); ("no_analogies", false)]] ].
Proof. vm_compute. reflexivity. Qed.

(** ** Blank responses *)

Section BlankFacts.

Import Str.

Lemma blank_app a b : blank (a ++ b) <-> blank a /\ blank b.
Proof. unfold blank. rewrite forallb_app. apply andb_true_iff. Qed.

Lemma tolower_space c : Char.isspace c = true -> Char.tolower c = c.
Proof. by destruct c as [[] [] [] [] [] [] [] []]. Qed.

Lemma lower_blank s : blank s -> lower s = s.
Proof.
  unfold blank. induction s as [|c s IH]; simpl; [done|].
  intros [Hc Hs]%andb_prop. by rewrite (tolower_space c Hc), IH.
Qed.

(** Only a blank word can occur in a blank text. *)
Lemma occurs_in_blank w x :
  blank x -> occurs_ignoring_case w x -> blank (lower w).
Proof.
  intros Hx [pre [s [post [-> Hs]]]].
  apply blank_app in Hx as [_ [Hb _]%blank_app].
  by rewrite <- Hs, (lower_blank s Hb).
Qed.

Lemma whole_word_occurs w x : occurs_as_whole_word w x -> occurs_ignoring_case w x.
Proof. intros [pre [s [post [E [Hs _]]]]]. by exists pre, s, post. Qed.

Lemma split_blank x : blank x -> split x = [].
Proof. intros H. apply split_words_of. by apply words_none. Qed.

Lemma blank_passes x :
  blank x ->
  word_count x = true /\ no_excluded_words x = true /\ no_analogies x = true.
Proof.
  intros Hx. split; [|split].
  - unfold word_count. by rewrite (split_blank x Hx).
  - apply no_excluded_words_spec. intros w Hin Hocc.
    pose proof (occurs_in_blank w x Hx Hocc) as Hb.
    simpl in Hin. destruct Hin as [<-|[<-|[<-|[]]]]; discriminate Hb.
  - apply no_analogies_spec.
    split; intros Hocc%whole_word_occurs;
      pose proof (occurs_in_blank _ x Hx Hocc) as Hb; discriminate Hb.
Qed.

End BlankFacts.

(** C9.  The empty response, and any response of whitespace only, has no
    word and passes the three constraints; [evaluate_output] with the
    constraints of the cell scores it true on each. *)
Theorem blank_response_passes_all (x : str) :
  blank x ->
  length (Str.split x) = 0 /\
  word_count x = true /\ no_excluded_words x = true /\ no_analogies x = true /\
  (forall st output cs,
     heap st !! output = Some (OStr x) ->
     heap st !! cs = Some (OChecks constraints_display) ->
     returned (evaluate_output output cs st) =
       Ok [("word_count", true); ("no_excluded_words", true); ("no_analogies", true)]).
Proof.
  intros Hx. destruct (blank_passes x Hx) as (Hw & He & Ha).
  split; [by rewrite (split_blank x Hx)|]. do 3 (split; [done|]).
  intros st output cs Hout Hcs.
  rewrite (returned_evaluate_output _ _ _ _ _ Hout Hcs), record_checks_constraints.
  simpl. unfold evaluation. by rewrite Hw, He, Ha.
Qed.

Lemma blank_response_passes_all_witness :
  (word_count "" = true /\ no_excluded_words "" = true /\ no_analogies "" = true) /\
  (word_count whitespace_reply = true /\ no_excluded_words whitespace_reply = true /\
   no_analogies whitespace_reply = true) /\
  returned (evaluate_output 1%positive 2%positive empty_reply_state) =
    Ok [("word_count", true); ("no_excluded_words", true); ("no_analogies", true)].
Proof.
  destruct (blank_response_passes_all "" eq_refl) as (_ & Hw & He & Ha & Hev).
  destruct (blank_response_passes_all whitespace_reply eq_refl) as (_ & Hw' & He' & Ha' & _).
  split; [by repeat split|]. split; [by repeat split|].
  exact (Hev empty_reply_state 1%positive 2%positive eq_refl eq_refl).
Defined.

(** ** The refinement branch *)

Section ControllerFacts.

Variable llm : list event -> str -> result str.

Lemma all_true_false_iff d : all_true d = false <-> some_constraint_fails d.
Proof.
  unfold all_true, some_constraint_fails. induction d as [|[k b] d IH]; simpl.
  - split; [done|]. by intros [k []].
  - destruct b; simpl.
    + rewrite IH. split.
      * intros [k' H]. exists k'. by right.
      * intros [k' [[= ]|H]]. by exists k'.
    + split; [|done]. intros _. exists k. by left.
Qed.

Lemma all_true_true_iff d : all_true d = true <-> ~ some_constraint_fails d.
Proof. rewrite <- all_true_false_iff. by destruct (all_true d). Qed.

(** The three cases of a run whose first call is answered. *)
Lemma run_cell_pass st r :
  llm (out st) initial_prompt = Ok r ->
  all_true (evaluation r) = true ->
  run_cell llm st =
    (fst (reached_if st r),
     Ok {| response := fst (fst (snd (reached_if st r)));
           constraints := snd (fst (snd (reached_if st r)));
           evaluation_results := snd (snd (reached_if st r));
           refined := None |}).
Proof. intros Hr Hall. rewrite run_cell_eq. unfold cell_outcome. by rewrite Hr, Hall. Qed.

Lemma run_cell_refine st r r2 :
  llm (out st) initial_prompt = Ok r ->
  all_true (evaluation r) = false ->
  llm (out (fst (reached_if st r))) refined_prompt_text = Ok r2 ->
  run_cell llm st =
    (fst (reached_end (fst (reached_if st r)) r2),
     Ok {| response := fst (fst (snd (reached_if st r)));
           constraints := snd (fst (snd (reached_if st r)));
           evaluation_results := snd (snd (reached_if st r));
           refined :=
             Some {| refined_prompt := refined_prompt_text;
                     refined_response := fst (snd (reached_end (fst (reached_if st r)) r2));
                     refined_evaluation := snd (snd (reached_end (fst (reached_if st r)) r2)) |} |}).
Proof.
  intros Hr Hall Hr2. rewrite run_cell_eq. unfold cell_outcome. rewrite Hr.
  simpl in *. by rewrite Hall, Hr2.
Qed.

Lemma run_cell_refine_raised st r e :
  llm (out st) initial_prompt = Ok r ->
  all_true (evaluation r) = false ->
  llm (out (fst (reached_if st r))) refined_prompt_text = Raised e ->
  run_cell llm st = (failed (fst (reached_if st r)) refined_prompt_text e, Raised e).
Proof.
  intros Hr Hall Hr2. rewrite run_cell_eq. unfold cell_outcome. rewrite Hr.
  simpl in *. by rewrite Hall, Hr2.
Qed.

Lemma run_cell_raised st e :
  llm (out st) initial_prompt = Raised e ->
  run_cell llm st = (failed st initial_prompt e, Raised e).
Proof. intros Hr. rewrite run_cell_eq. unfold cell_outcome. by rewrite Hr. Qed.

Lemma calls_reached_if st r :
  generation_calls st (fst (reached_if st r)) = [(initial_prompt, Ok r)].
Proof. unfold generation_calls, new_events. simpl. by rewrite drop_app_length. Qed.

Lemma calls_reached_end st r r2 :
  generation_calls st (fst (reached_end (fst (reached_if st r)) r2)) =
    [(initial_prompt, Ok r); (refined_prompt_text, Ok r2)].
Proof.
  unfold generation_calls, new_events. simpl.
  by rewrite <- app_assoc, drop_app_length.
Qed.

Lemma calls_refine_raised st r e :
  generation_calls st (failed (fst (reached_if st r)) refined_prompt_text e) =
    [(initial_prompt, Ok r); (refined_prompt_text, Raised e)].
Proof.
  unfold generation_calls, new_events. simpl.
  by rewrite <- app_assoc, drop_app_length.
Qed.

Lemma calls_raised st e :
  generation_calls st (failed st initial_prompt e) = [(initial_prompt, Raised e)].
Proof. unfold generation_calls, new_events. simpl. by rewrite drop_app_length. Qed.

(** The calls of any run: the first prompt, then the refined prompt,
    once, exactly when the first reply fails a constraint. *)
Lemma generation_calls_run st :
  generation_calls st (fst (run_cell llm st)) =
    match llm (out st) initial_prompt with
    | Raised e => [(initial_prompt, Raised e)]
    | Ok r =>
        if all_true (evaluation r) then [(initial_prompt, Ok r)]
        else [(initial_prompt, Ok r);
              (refined_prompt_text,
               llm (out (fst (reached_if st r))) refined_prompt_text)]
    end.
Proof.
  destruct (llm (out st) initial_prompt) as [r|e] eqn:Hr.
  - destruct (all_true (evaluation r)) eqn:Hall.
    + rewrite (run_cell_pass st r Hr Hall). apply calls_reached_if.
    + destruct (llm (out (fst (reached_if st r))) refined_prompt_text) as [r2|e] eqn:Hr2.
      * rewrite (run_cell_refine st r r2 Hr Hall Hr2). apply calls_reached_end.
      * rewrite (run_cell_refine_raised st r e Hr Hall Hr2). apply calls_refine_raised.
  - rewrite (run_cell_raised st e Hr). apply calls_raised.
Qed.

End ControllerFacts.

(** C1.  After a first reply [r], the refinement branch runs exactly
    when some constraint of the first evaluation is false.  When all
    are true the cell ends in the state it reached at its [if]: one
    generation call, no refined prompt, no second evaluation.  When one
    is false there is exactly one further call, with the refined
    prompt, and its reply is evaluated once. *)
Theorem refinement_iff_some_constraint_fails
    (llm : list event -> str -> result str) (st : state) (r : str) :
  llm (out st) initial_prompt = Ok r ->
  let final := run_cell llm st in
  let at_if := fst (reached_if st r) in
  (some_constraint_fails (evaluation r) <->
   length (generation_calls st (fst final)) = 2) /\
  (~ some_constraint_fails (evaluation r) ->
   fst final = at_if /\
   generation_calls st (fst final) = [(initial_prompt, Ok r)] /\
   exists b, snd final = Ok b /\ refined b = None /\
             heap (fst final) !! evaluation_results b = Some (OBools (evaluation r))) /\
  (some_constraint_fails (evaluation r) ->
   generation_calls st (fst final) =
     [(initial_prompt, Ok r);
      (refined_prompt_text, llm (out at_if) refined_prompt_text)] /\
   forall r2, llm (out at_if) refined_prompt_text = Ok r2 ->
     new_events at_if (fst final) =
       [Invoke refined_prompt_text (Ok r2);
        Print [PStr ([LF] ++ "Refined response:" ++ [LF]); PStr r2];
        Print [PStr ([LF] ++ "Refined evaluation results:"); PDict (evaluation r2)]] /\
     exists b rf,
       snd final = Ok b /\ refined b = Some rf /\
       refined_prompt rf = refined_prompt_text /\
       heap (fst final) !! evaluation_results b = Some (OBools (evaluation r)) /\
       heap (fst final) !! refined_response rf = Some (OStr r2) /\
       heap (fst final) !! refined_evaluation rf = Some (OBools (evaluation r2))).
Proof.
  intros Hr final at_if. split; [|split].
  - unfold final. rewrite generation_calls_run, Hr, <- all_true_false_iff.
    by destruct (all_true (evaluation r)).
  - intros Hall%all_true_true_iff. unfold final.
    rewrite (run_cell_pass llm st r Hr Hall). split; [done|].
    split; [apply calls_reached_if|].
    eexists. split; [reflexivity|]. split; [done|]. heap_lookup.
  - intros Hall%all_true_false_iff. split.
    + unfold final. by rewrite generation_calls_run, Hr, Hall.
    + intros r2 Hr2. unfold final.
      rewrite (run_cell_refine llm st r r2 Hr Hall Hr2). split.
      * unfold new_events. simpl. by rewrite drop_app_length.
      * eexists _, _. split; [reflexivity|]. split; [reflexivity|]. split; [done|].
        simpl. split; [|split]; heap_lookup.
Qed.

Lemma refinement_iff_some_constraint_fails_witness :
  length (generation_calls (State ∅ []) (fst (run_cell analogy_then_plain (State ∅ [])))) = 2 /\
  length (generation_calls (State ∅ [])
            (fst (run_cell (scripted ["It learns from data."]) (State ∅ [])))) = 1.
Proof.
  split.
  - apply (proj1 (refinement_iff_some_constraint_fails
                    analogy_then_plain (State ∅ []) "It learns like a brain." eq_refl)).
    exists "no_analogies". simpl. tauto.
  - destruct (proj1 (proj2 (refinement_iff_some_constraint_fails
                (scripted ["It learns from data."]) (State ∅ []) "It learns from data." eq_refl)))
      as (_ & -> & _); [|reflexivity].
    apply all_true_true_iff. reflexivity.
Defined.

(** C2.  Whatever the model replies, a run issues at most two generation
    calls: the first prompt, then at most one call with the refined
    prompt.  A run that ends with a refined evaluation in which a
    constraint still fails has made exactly two calls. *)
Theorem at_most_one_refinement
    (llm : list event -> str -> result str) (st : state) :
  let final := run_cell llm st in
  let calls := generation_calls st (fst final) in
  length calls <= 2 /\
  (exists first rest,
     calls = first :: rest /\ fst first = initial_prompt /\
     length rest <= 1 /\ Forall (fun c => fst c = refined_prompt_text) rest) /\
  (forall b rf d,
     snd final = Ok b -> refined b = Some rf ->
     heap (fst final) !! refined_evaluation rf = Some (OBools d) ->
     some_constraint_fails d ->
     length calls = 2).
Proof.
  intros final calls. unfold calls, final. rewrite generation_calls_run.
  destruct (llm (out st) initial_prompt) as [r|e] eqn:Hr.
  - destruct (all_true (evaluation r)) eqn:Hall.
    + split; [simpl; lia|]. split.
      * eexists _, []. split; [reflexivity|]. split; [done|]. split; [simpl; lia|constructor].
      * intros b rf d Hb Hrf. rewrite (run_cell_pass llm st r Hr Hall) in Hb.
        simpl in Hb. injection Hb as <-. discriminate Hrf.
    + split; [simpl; lia|]. split; [|done].
      eexists _, [_]. split; [reflexivity|]. split; [done|]. split; [simpl; lia|].
      by repeat constructor.
  - split; [simpl; lia|]. split.
    + eexists _, []. split; [reflexivity|]. split; [done|]. split; [simpl; lia|constructor].
    + intros b rf d Hb. rewrite (run_cell_raised llm st e Hr) in Hb. discriminate Hb.
Qed.

(** The recorded run: both evaluations fail [no_analogies], and the cell
    stops after the second. *)
Lemma at_most_one_refinement_witness :
  length (generation_calls (State ∅ []) (fst (run_cell recorded_model (State ∅ [])))) = 2.
Proof.
  apply (proj2 (proj2 (at_most_one_refinement recorded_model (State ∅ [])))
           {| response := 1%positive; constraints := 2%positive;
              evaluation_results := 3%positive;
              refined := Some {| refined_prompt := refined_prompt_text;
                                 refined_response := 4%positive;
                                 refined_evaluation := 5%positive |} |}
           {| refined_prompt := refined_prompt_text;
              refined_response := 4%positive;
              refined_evaluation := 5%positive |}
           [("word_count", true); ("no_excluded_words", true); ("no_analogies", false)]).
  - vm_compute. reflexivity.
  - reflexivity.
  - vm_compute. reflexivity.
  - exists "no_analogies". simpl. tauto.
Defined.

(** C7.  The keyword arguments of the refinement are those of the first
    prompt with [" and concise"] appended to [style] and [", like, as"]
    appended to [excluded_words]; [topic] is kept.  The adjustment is
    fixed: whatever the model replied, a refined prompt is the one text
    rendered from these arguments. *)
Theorem refined_parameters_extend_base :
  kwarg "topic" base_parameters = Some "artificial intelligence" /\
  kwarg "style" base_parameters = Some "technical" /\
  kwarg "excluded_words" base_parameters = Some "robot, human-like, science fiction" /\
  keys refined_parameters = keys base_parameters /\
  kwarg "topic" refined_parameters = kwarg "topic" base_parameters /\
  kwarg "style" refined_parameters =
    (fun s => s ++ " and concise") <$> kwarg "style" base_parameters /\
  kwarg "excluded_words" refined_parameters =
    (fun s => s ++ ", like, as") <$> kwarg "excluded_words" base_parameters /\
  format constraint_prompt refined_parameters = Ok refined_prompt_text /\
  (forall llm st b rf,
     snd (run_cell llm st) = Ok b -> refined b = Some rf ->
     refined_prompt rf = refined_prompt_text) /\
  (forall llm st,
     Forall (fun c => fst c = refined_prompt_text)
            (tail (generation_calls st (fst (run_cell llm st))))).
Proof.
  do 8 (split; [reflexivity|]). split.
  - intros llm st b rf Hb Hrf. rewrite run_cell_eq in Hb. unfold cell_outcome in Hb.
    destruct (llm (out st) initial_prompt) as [r|e]; [|discriminate Hb].
    simpl in Hb. destruct (all_true (evaluation r)).
    + injection Hb as <-. discriminate Hrf.
    + destruct (llm _ refined_prompt_text) as [r2|e]; [|discriminate Hb].
      injection Hb as <-. simpl in Hrf. by injection Hrf as <-.
  - intros llm st. rewrite generation_calls_run.
    destruct (llm (out st) initial_prompt) as [r|e]; [|constructor].
    destruct (all_true (evaluation r)); simpl; by repeat constructor.
Qed.

Lemma refined_parameters_extend_base_witness :
  Forall (fun c => fst c = refined_prompt_text)
         (tail (generation_calls (State ∅ [])
                  (fst (run_cell analogy_then_plain (State ∅ []))))).
Proof.
  destruct refined_parameters_extend_base as (_ & _ & _ & _ & _ & _ & _ & _ & _ & H).
  exact (H analogy_then_plain (State ∅ [])).
Defined.

(** C8.  In a run that refines, the dictionary [constraints] is the same
    object with the same contents at both evaluations and when the cell
    ends; both results are the verdicts of the same three predicates,
    the first on the first reply and the second on the refined one.
    The forbidden words are the three of the cell: neither [like] nor
    [as] is among them, and a response in which none of the three
    occurs passes [no_excluded_words] whatever else it contains. *)
Theorem constraints_unchanged_by_refinement
    (llm : list event -> str -> result str) (st : state) (r r2 : str) :
  llm (out st) initial_prompt = Ok r ->
  some_constraint_fails (evaluation r) ->
  llm (out (fst (reached_if st r))) refined_prompt_text = Ok r2 ->
  let final := run_cell llm st in
  (exists b rf,
     snd final = Ok b /\ refined b = Some rf /\
     heap (fst (reached_if st r)) !! constraints b = Some (OChecks constraints_display) /\
     heap (fst final) !! constraints b = Some (OChecks constraints_display) /\
     heap (fst final) !! evaluation_results b = Some (OBools (evaluation r)) /\
     heap (fst final) !! refined_evaluation rf = Some (OBools (evaluation r2))) /\
  excluded_words = ["robot"; "human-like"; "science fiction"] /\
  ~ In "like" excluded_words /\ ~ In "as" excluded_words /\
  (forall x,
     (forall w, In w ["robot"; "human-like"; "science fiction"] ->
                ~ occurs_ignoring_case w x) ->
     no_excluded_words x = true) /\
  no_excluded_words "like, as" = true.
Proof.
  intros Hr Hfail%all_true_false_iff Hr2 final. split.
  - unfold final. rewrite (run_cell_refine llm st r r2 Hr Hfail Hr2).
    eexists _, _. split; [reflexivity|]. split; [reflexivity|]. simpl.
    split; [|split; [|split]]; heap_lookup.
  - split; [reflexivity|]. split; [|split; [|split; [|reflexivity]]].
    + simpl. intros [H|[H|[H|[]]]]; discriminate H.
    + simpl. intros [H|[H|[H|[]]]]; discriminate H.
    + intros x H. by apply no_excluded_words_spec.
Qed.

Lemma constraints_unchanged_by_refinement_witness :
  let final := run_cell analogy_then_plain (State ∅ []) in
  exists b rf,
    snd final = Ok b /\ refined b = Some rf /\
    heap (fst final) !! constraints b = Some (OChecks constraints_display) /\
    heap (fst final) !! refined_evaluation rf =
      Some (OBools (evaluation "It learns from data.")).
Proof.
  intros final.
  destruct (proj1 (constraints_unchanged_by_refinement
              analogy_then_plain (State ∅ [])
              "It learns like a brain." "It learns from data."
              eq_refl
              (ex_intro _ "no_analogies" (or_intror (or_intror (or_introl eq_refl))))
              eq_refl))
    as (b & rf & Hb & Hrf & _ & Hc & _ & He).
  exists b, rf. by repeat split.
Defined.

(** * Further properties *)

(** ** Words and sub-texts *)

Section WordCountFacts.

Import Str.

Lemma split_from_length_ge cur cur' y :
  length (split_from cur' y) <= length (split_from (cur ++ cur') y).
Proof.
  revert cur'. induction y as [|c y IH]; intros cur'.
  - destruct cur' as [|a cur']; simpl; [lia|]. by destruct cur.
  - simpl. destruct (Char.isspace c).
    + destruct cur' as [|a cur']; [|by destruct cur].
      rewrite app_nil_r. destruct cur; simpl; lia.
    + rewrite <- app_assoc. apply IH.
Qed.

Lemma split_from_length_app_l cur x y :
  length (split_from cur x) <= length (split_from cur (x ++ y)).
Proof.
  revert cur. induction x as [|c x IH]; intros cur.
  - simpl (_ ++ _). destruct cur as [|a cur]; simpl; [lia|].
    pose proof (split_from_length_ge [] (a :: cur) y) as H.
    assert (1 <= length (split_from (a :: cur) y)); [|done].
    clear H. generalize (a :: cur), (@nil_cons _ a cur). clear.
    induction y as [|c y IH]; intros cur Hcur.
    + destruct cur; [done|simpl; lia].
    + simpl. destruct (Char.isspace c).
      * destruct cur; [done|simpl; lia].
      * apply IH. by destruct cur.
  - simpl. destruct (Char.isspace c).
    + destruct cur; simpl; [apply IH|]. pose proof (IH []). lia.
    + apply IH.
Qed.

Lemma split_from_length_app_r cur x y :
  length (split y) <= length (split_from cur (x ++ y)).
Proof.
  revert cur. induction x as [|c x IH]; intros cur.
  - simpl. pose proof (split_from_length_ge cur [] y) as H.
    by rewrite app_nil_r in H.
  - simpl. destruct (Char.isspace c).
    + destruct cur; simpl; [apply IH|]. pose proof (IH []). lia.
    + apply IH.
Qed.

(** A whitespace character ends the word being read. *)
Lemma split_from_app_space cur x c y :
  Char.isspace c = true ->
  split_from cur (x ++ c :: y) = split_from cur x ++ split y.
Proof.
  intros Hc. revert cur. induction x as [|a x IH]; intros cur.
  - simpl. rewrite Hc. by destruct cur.
  - simpl. destruct (Char.isspace a).
    + destruct cur; simpl; by rewrite IH.
    + apply IH.
Qed.

Lemma split_from_app_blank cur x t :
  blank t -> split_from cur (x ++ t) = split_from cur x.
Proof.
  intros Ht. revert cur. induction x as [|a x IH]; intros cur.
  - simpl (_ ++ _). revert cur. unfold blank in Ht.
    induction t as [|c t IHt]; intros cur; [done|].
    simpl in Ht. apply andb_prop in Ht as [Hc Ht'].
    simpl. rewrite Hc. specialize (IHt Ht' []). simpl in IHt.
    destruct cur; by rewrite IHt.
  - simpl. destruct (Char.isspace a).
    + destruct cur; by rewrite IH.
    + apply IH.
Qed.

End WordCountFacts.

(** X1.  Every part of a response that passes [word_count] passes it:
    cutting text off the front or the end never adds a word. *)
Theorem word_count_of_part (pre x post : str) :
  word_count (pre ++ x ++ post) = true -> word_count x = true.
Proof.
  unfold word_count. rewrite !Nat.leb_le. intros H.
  pose proof (split_from_length_app_r [] pre (x ++ post)) as Hr.
  pose proof (split_from_length_app_l [] x post) as Hl.
  unfold Str.split in *. lia.
Qed.

Lemma word_count_of_part_witness :
  word_count "three" = true.
Proof.
  apply (word_count_of_part "one two " "three" " four"). reflexivity.
Defined.

(** X2.  Whitespace around a response does not change its words, and a
    whitespace character between two texts keeps their words apart:
    the words of the whole are those of the first text followed by
    those of the second, so [word_count] compares the sum of the two
    counts with 100. *)
Theorem word_count_whitespace (s t x y : str) (c : ascii) :
  blank s -> blank t -> Char.isspace c = true ->
  Str.split (s ++ x ++ t) = Str.split x /\
  word_count (s ++ x ++ t) = word_count x /\
  Str.split (x ++ c :: y) = Str.split x ++ Str.split y /\
  word_count (x ++ c :: y) =
    (length (Str.split x) + length (Str.split y) <=? 100).
Proof.
  intros Hs Ht Hc.
  assert (E1 : Str.split (s ++ x ++ t) = Str.split x).
  { unfold Str.split. by rewrite split_from_blank, split_from_app_blank. }
  assert (E2 : Str.split (x ++ c :: y) = Str.split x ++ Str.split y).
  { unfold Str.split at 1 2. by apply split_from_app_space. }
  split; [done|]. split; [unfold word_count; by rewrite E1|].
  split; [done|]. unfold word_count. by rewrite E2, length_app.
Qed.

Lemma word_count_whitespace_witness :
  Str.split ("  " ++ "a b" ++ [LF]) = ["a"; "b"] /\
  Str.split ("a b" ++ LF :: "c") = ["a"; "b"; "c"].
Proof.
  destruct (word_count_whitespace "  " [LF] "a b" "c" LF eq_refl eq_refl eq_refl)
    as (E1 & _ & E2 & _).
  split; [exact E1 | exact E2].
Defined.

(** ** Letter case *)

Section CaseFacts.

Import Str Re.







End CaseFacts.



(** ** Forbidden words and their context *)

Section ContextFacts.

Import Str Re.

Lemma occurs_in_context w pre x post :
  occurs_ignoring_case w x -> occurs_ignoring_case w (pre ++ x ++ post).
Proof.
  intros (p & s & q & -> & Hs). exists (pre ++ p), s, (q ++ post).
  split; [|done]. by rewrite <- !app_assoc.
Qed.

Lemma last_app_cases {A} (l1 l2 : list A) :
  last (l1 ++ l2) = match last l2 with Some a => Some a | None => last l1 end.
Proof.
  induction l2 as [|a l2 IH] using rev_ind.
  - by rewrite app_nil_r.
  - by rewrite app_assoc, !last_snoc.
Qed.

Lemma head_app_cases {A} (l1 l2 : list A) :
  head (l1 ++ l2) = match head l1 with Some a => Some a | None => head l2 end.
Proof. by destruct l1. Qed.

Lemma whole_word_in_context w pre x post :
  isword_opt (last pre) = false -> isword_opt (head post) = false ->
  occurs_as_whole_word w x -> occurs_as_whole_word w (pre ++ x ++ post).
Proof.
  intros Hpre Hpost (p & s & q & -> & Hs & Hp & Hq).
  exists (pre ++ p), s, (q ++ post). split; [by rewrite <- !app_assoc|].
  split; [done|]. rewrite last_app_cases, head_app_cases. split.
  - by destruct (last p).
  - by destruct (head q).
Qed.

End ContextFacts.

(** X4.  A forbidden word is found wherever it stands: a response with
    a part that fails [no_excluded_words] fails it, so every part of a
    response that passes does pass. *)
Theorem no_excluded_words_of_part (pre x post : str) :
  no_excluded_words x = false -> no_excluded_words (pre ++ x ++ post) = false.
Proof.
  rewrite <- !not_true_iff_false, !no_excluded_words_spec.
  intros Hx H. apply Hx. intros w Hin Hocc.
  apply (H w Hin). by apply occurs_in_context.
Qed.

Lemma no_excluded_words_of_part_witness :
  no_excluded_words "microbots" = false.
Proof.
  apply (no_excluded_words_of_part "mic" "robot" "s"). reflexivity.
Defined.

(** X5.  A response that fails [no_analogies] still fails it inside a
    longer text, provided the text before it does not end, and the text
    after it does not begin, with a word character.  Without that
    proviso the match can be lost: [like] fails and [alike] passes. *)
Theorem no_analogies_in_context (pre x post : str) :
  Re.isword_opt (last pre) = false -> Re.isword_opt (head post) = false ->
  no_analogies x = false -> no_analogies (pre ++ x ++ post) = false.
Proof.
  intros Hpre Hpost. rewrite <- !not_true_iff_false, !no_analogies_spec.
  intros Hx [Has Hlike]. apply Hx.
  split; intros Hocc; [apply Has|apply Hlike]; by apply whole_word_in_context.
Qed.

Lemma no_analogies_in_context_witness :
  no_analogies "It is, like, new." = false /\
  no_analogies "like" = false /\ no_analogies "alike" = true.
Proof.
  split; [|by split].
  apply (no_analogies_in_context "It is, " "like" ", new."); reflexivity.
Defined.

(** X6.  The forbidden word [human-like] sets off the search for
    analogies as well: a response in which it occurs, in any letter
    case and not followed by a word character, fails both
    [no_excluded_words] and [no_analogies]. *)
Theorem human_like_fails_twice (pre s post : str) :
  Str.lower s = "human-like" ->
  Re.isword_opt (head post) = false ->
  no_excluded_words (pre ++ s ++ post) = false /\
  no_analogies (pre ++ s ++ post) = false.
Proof.
  intros Hs Hpost. split.
  - apply not_true_is_false. rewrite no_excluded_words_spec. intros H.
    apply (H "human-like"); [simpl; tauto|]. by exists pre, s, post.
  - apply not_true_is_false. rewrite no_analogies_spec. intros [_ H]. apply H.
    change ("human-like" : str) with ("human-" ++ "like" : str) in Hs.
    apply map_eq_app in Hs as (s1 & s2 & -> & H1 & H2).
    exists (pre ++ s1), s2, post. split; [by rewrite <- !app_assoc|].
    split; [done|]. split; [|done].
    rewrite last_app_cases.
    assert (Re.isword_opt (last s1) = false) as Hl.
    { rewrite <- isword_last_lower. unfold Str.lower. by rewrite H1. }
    destruct (last s1) eqn:E; [done|].
    apply last_None in E. by subst s1.
Qed.

Lemma human_like_fails_twice_witness :
  no_excluded_words "Human-Like machines." = false /\
  no_analogies "Human-Like machines." = false.
Proof.
  apply (human_like_fails_twice "" "Human-Like" " machines."); reflexivity.
Defined.

(** ** More on [evaluate_output] *)

Section MoreEvaluateFacts.

Lemma record_checks_raises x (C1 : dict check_func) k (f : check_func) C2 e :
  forall acc,
  (forall k' f', In (k', f') C1 -> exists b, f' x = Ok b) ->
  f x = Raised e ->
  snd (record_checks x (C1 ++ (k, f) :: C2) acc) = Some e.
Proof.
  induction C1 as [|[k1 f1] C1 IH]; intros acc Hret Hf; simpl.
  - by rewrite Hf.
  - destruct (Hret k1 f1) as [b Hb]; [by left|]. rewrite Hb.
    apply IH; [|done]. intros k' f' Hin. apply (Hret k' f'). by right.
Qed.

(** A call that returns has returned the location it allocated first. *)
Lemma evaluate_output_loc output cs st l :
  snd (evaluate_output output cs st) = Ok l -> l = fresh (dom (heap st)).
Proof.
  unfold evaluate_output, bind at 1, alloc. unfold bind at 1.
  destruct (items cs _) as [st1 [entries|e]]; [|done].
  unfold bind. destruct (for_each entries _ st1) as [st2 [[]|e]]; [|done].
  simpl. by intros [= <-].
Qed.

Lemma verdicts_map x C :
  (forall k f, In (k, f) C -> exists b, f x = Ok b) ->
  verdicts x C (map (verdict_of x) C).
Proof.
  induction C as [|[k f] C IH]; intros H; [constructor|].
  constructor.
  - destruct (H k f) as [b Hb]; [by left|]. unfold verdict_of. simpl. by rewrite Hb.
  - apply IH. intros k' f' Hin. apply (H k' f'). by right.
Qed.

End MoreEvaluateFacts.

(** X7.  A callable that raises ends the call: when the callables of
    the entries before it return on the response, [evaluate_output]
    raises the exception of that callable, whatever the entries after
    it are; no dictionary is returned, and nothing that existed before
    the call is changed. *)
Theorem evaluate_output_raises
    (st : state) (output cs : loc) (x : str)
    (C1 C2 : dict check_func) (k : str) (f : check_func) (e : exn) :
  heap st !! output = Some (OStr x) ->
  heap st !! cs = Some (OChecks (C1 ++ (k, f) :: C2)) ->
  (forall k' f', In (k', f') C1 -> exists b, f' x = Ok b) ->
  f x = Raised e ->
  snd (evaluate_output output cs st) = Raised e /\
  returned (evaluate_output output cs st) = Raised e /\
  unchanged st (fst (evaluate_output output cs st)).
Proof.
  intros Hout Hcs Hret Hf.
  pose proof (record_checks_raises x C1 k f C2 e [] Hret Hf) as Hsnd.
  split; [|split].
  - rewrite (evaluate_output_eq _ _ _ _ _ Hout Hcs). cbv zeta. cbn [snd].
    by rewrite Hsnd.
  - rewrite (returned_evaluate_output _ _ _ _ _ Hout Hcs). by rewrite Hsnd.
  - apply evaluate_output_unchanged.
Qed.

Lemma evaluate_output_raises_witness :
  returned (evaluate_output 1%positive 2%positive broken_state) = Raised ValueError.
Proof.
  apply (evaluate_output_raises broken_state 1%positive 2%positive
           "It learns like a brain."
           [("word_count", fun x => Ok (word_count x))]
           [("no_analogies", fun x => Ok (no_analogies x))]
           "broken" (fun _ => Raised ValueError) ValueError eq_refl eq_refl).
  - simpl. intros k' f' [[= <- <-]|[]]. by eexists.
  - reflexivity.
Defined.

(** X8.  Every call returns a dictionary of its own: the object did not
    exist before the call and is neither the response nor the
    dictionary of constraints; a later call, on whatever arguments,
    returns another object and leaves this one as it is. *)
Theorem evaluate_output_returns_new_object
    (st : state) (output cs : loc) (x : str) (C : dict check_func) (l : loc) :
  heap st !! output = Some (OStr x) ->
  heap st !! cs = Some (OChecks C) ->
  snd (evaluate_output output cs st) = Ok l ->
  let st1 := fst (evaluate_output output cs st) in
  heap st !! l = None /\ l <> output /\ l <> cs /\
  (exists d, heap st1 !! l = Some (OBools d)) /\
  (forall output' cs' l',
     snd (evaluate_output output' cs' st1) = Ok l' ->
     l' <> l /\
     heap (fst (evaluate_output output' cs' st1)) !! l = heap st1 !! l).
Proof.
  intros Hout Hcs Hl st1.
  pose proof (evaluate_output_loc _ _ _ _ Hl) as ->.
  assert (Hnew : heap st !! fresh (dom (heap st)) = None).
  { apply not_elem_of_dom. apply is_fresh. }
  assert (Hd : exists d, heap st1 !! fresh (dom (heap st)) = Some (OBools d)).
  { unfold st1. rewrite (evaluate_output_eq _ _ _ _ _ Hout Hcs). simpl.
    eexists. apply lookup_insert_eq. }
  split; [done|]. split; [intros E; congruence|]. split; [intros E; congruence|].
  split; [done|]. intros output' cs' l' Hl'.
  destruct Hd as [d Hd].
  pose proof (evaluate_output_loc _ _ _ _ Hl') as ->. split.
  - intros E. apply (is_fresh (dom (heap st1))). rewrite E.
    apply elem_of_dom. by exists (OBools d).
  - destruct (evaluate_output_unchanged output' cs' st1) as [_ Hkeep].
    by rewrite (Hkeep _ _ Hd).
Qed.

Lemma evaluate_output_returns_new_object_witness :
  let st1 := fst (evaluate_output 1%positive 2%positive empty_reply_state) in
  snd (evaluate_output 1%positive 2%positive st1) = Ok 4%positive /\
  heap (fst (evaluate_output 1%positive 2%positive st1)) !! 3%positive =
    heap st1 !! 3%positive.
Proof.
  intros st1. split; [vm_compute; reflexivity|].
  destruct (evaluate_output_returns_new_object
              empty_reply_state 1%positive 2%positive "" constraints_display 3%positive
              eq_refl eq_refl) as (_ & _ & _ & _ & H).
  - vm_compute. reflexivity.
  - apply (H 1%positive 2%positive 4%positive). vm_compute. reflexivity.
Defined.

(** X9.  The order in which the constraints were entered does not
    matter to the verdicts: on the same response, two dictionaries with
    the same entries in different orders give results with the same
    name and truth value pairs. *)
Theorem evaluate_output_order_irrelevant
    (st st' : state) (output cs output' cs' : loc) (x : str)
    (C C' : dict check_func) :
  heap st !! output = Some (OStr x) ->
  heap st !! cs = Some (OChecks C) ->
  heap st' !! output' = Some (OStr x) ->
  heap st' !! cs' = Some (OChecks C') ->
  NoDup (keys C) ->
  Permutation C C' ->
  (forall k f, In (k, f) C -> exists b, f x = Ok b) ->
  exists d d',
    returned (evaluate_output output cs st) = Ok d /\
    returned (evaluate_output output' cs' st') = Ok d' /\
    Permutation d d' /\
    (forall k b, In (k, b) d <-> In (k, b) d').
Proof.
  intros Hout Hcs Hout' Hcs' Hnd Hperm Hret.
  assert (Hret' : forall k f, In (k, f) C' -> exists b, f x = Ok b).
  { intros k f Hin. apply (Hret k f).
    apply list_elem_of_In. rewrite Hperm. by apply list_elem_of_In. }
  assert (Hnd' : NoDup (keys C')).
  { unfold keys in *. change (NoDup (fst <$> C')). by rewrite <- Hperm. }
  exists (map (verdict_of x) C), (map (verdict_of x) C').
  rewrite (returned_evaluate_output _ _ _ _ _ Hout Hcs),
          (returned_evaluate_output _ _ _ _ _ Hout' Hcs').
  rewrite (record_checks_total x C [] _ (verdicts_map x C Hret) Hnd).
  rewrite (record_checks_total x C' [] _ (verdicts_map x C' Hret') Hnd').
  assert (Hp : Permutation (map (verdict_of x) C) (map (verdict_of x) C'))
    by (by apply Permutation_map).
  split; [done|]. split; [done|]. split; [done|].
  intros k b. rewrite <- !list_elem_of_In. by rewrite Hp.
Qed.

Lemma evaluate_output_order_irrelevant_witness :
  exists d d',
    returned (evaluate_output 1%positive 2%positive reordered_state) = Ok d /\
    returned (evaluate_output 1%positive 3%positive reordered_state) = Ok d' /\
    Permutation d d' /\
    (forall k b, In (k, b) d <-> In (k, b) d').
Proof.
  apply (evaluate_output_order_irrelevant reordered_state reordered_state
           1%positive 2%positive 1%positive 3%positive "It learns like a brain."
           constraints_display reordered_constraints eq_refl eq_refl eq_refl eq_refl).
  - apply dict_display_NoDup.
  - change constraints_display with
      [ ("word_count", fun x => Ok (word_count x));
        ("no_excluded_words", fun x => Ok (no_excluded_words x));
        ("no_analogies", fun x => Ok (no_analogies x)) ].
    unfold reordered_constraints.
    apply Permutation_sym, (Permutation_cons_app [_; _] []). reflexivity.
  - simpl. intros k f [[= <- <-]|[[= <- <-]|[[= <- <-]|[]]]]; by eexists.
Defined.

(** X10.  Without constraints there is nothing to fail: on a dictionary
    with no entry the call returns an empty dictionary whatever its
    first argument is, and [all] of no verdict is true. *)
Theorem evaluate_output_no_constraints (st : state) (output cs : loc) :
  heap st !! cs = Some (OChecks []) ->
  returned (evaluate_output output cs st) = Ok [] /\
  all_true [] = true.
Proof.
  intros Hcs. split; [|done].
  unfold evaluate_output, bind at 1, alloc. unfold bind at 1.
  rewrite (items_eq _ cs []) by (heap_lookup; exact Hcs).
  unfold returned. simpl. by rewrite lookup_insert_eq.
Qed.

Lemma evaluate_output_no_constraints_witness :
  returned (evaluate_output 1%positive 2%positive no_constraints_state) = Ok [].
Proof.
  apply (evaluate_output_no_constraints no_constraints_state 1%positive 2%positive).
  reflexivity.
Defined.

(** ** More on the run of the cell *)

(** X11.  When the first call of the model fails, the cell stops there
    with that exception: nothing is printed, no object is created and
    no evaluation takes place. *)
Theorem run_cell_first_call_fails
    (llm : list event -> str -> result str) (st : state) (e : exn) :
  llm (out st) initial_prompt = Raised e ->
  snd (run_cell llm st) = Raised e /\
  heap (fst (run_cell llm st)) = heap st /\
  new_events st (fst (run_cell llm st)) = [Invoke initial_prompt (Raised e)] /\
  printed_lines (new_events st (fst (run_cell llm st))) = [].
Proof.
  intros He. rewrite (run_cell_raised llm st e He).
  assert (E : new_events st (failed st initial_prompt e) =
              [Invoke initial_prompt (Raised e)]).
  { unfold new_events. simpl. by rewrite drop_app_length. }
  cbn [fst snd]. by rewrite E.
Qed.

Lemma run_cell_first_call_fails_witness :
  snd (run_cell (scripted []) (State ∅ [])) = Raised (GenerationError "no reply") /\
  heap (fst (run_cell (scripted []) (State ∅ []))) = ∅.
Proof.
  destruct (run_cell_first_call_fails (scripted []) (State ∅ [])
              (GenerationError "no reply") eq_refl) as (H1 & H2 & _).
  split; [exact H1 | exact H2].
Defined.



(** X13.  A run of the cell only adds: the trace it starts from is kept
    as the beginning of the trace it ends with, and every object that
    existed before the run is unchanged after it, whatever the model
    replies and also when the run ends with an exception. *)
Theorem run_cell_only_adds
    (llm : list event -> str -> result str) (st : state) :
  (exists evs, out (fst (run_cell llm st)) = out st ++ evs) /\
  (forall l o, heap st !! l = Some o -> heap (fst (run_cell llm st)) !! l = Some o).
Proof.
  rewrite run_cell_eq. unfold cell_outcome.
  destruct (llm (out st) initial_prompt) as [r|e]; [|split; [by eexists|done]].
  simpl. destruct (all_true (evaluation r)).
  - split; [by eexists|]. intros l o H. heap_lookup. done.
  - destruct (llm _ refined_prompt_text) as [r2|e]; simpl.
    + split; [rewrite <- app_assoc; by eexists|]. intros l o H. heap_lookup. done.
    + split; [rewrite <- app_assoc; by eexists|]. intros l o H. heap_lookup. done.
Qed.

(** X14.  What a finished run has printed is what it has stored: the
    response and the first evaluation, as they stand in the heap under
    [response] and [evaluation_results], and, exactly when that
    evaluation has a false entry, the refined response and its
    evaluation as stored under [refined_response] and
    [refined_evaluation]. *)
Theorem printed_is_stored
    (llm : list event -> str -> result str) (st : state) (b : bindings) :
  snd (run_cell llm st) = Ok b ->
  let final := fst (run_cell llm st) in
  exists r d,
    heap final !! response b = Some (OStr r) /\
    heap final !! evaluation_results b = Some (OBools d) /\
    match refined b with
    | None =>
        all_true d = true /\
        printed_lines (new_events st final) =
          [ [PStr r]; [PStr "Evaluation results:"; PDict d] ]
    | Some rf =>
        all_true d = false /\
        exists r2 d2,
          heap final !! refined_response rf = Some (OStr r2) /\
          heap final !! refined_evaluation rf = Some (OBools d2) /\
          printed_lines (new_events st final) =
            [ [PStr r]; [PStr "Evaluation results:"; PDict d];
              [PStr ([LF] ++ "Refined response:" ++ [LF]); PStr r2];
              [PStr ([LF] ++ "Refined evaluation results:"); PDict d2] ]
    end.
Proof.
  intros Hb final. unfold final. clear final. revert Hb.
  rewrite run_cell_eq. unfold cell_outcome.
  destruct (llm (out st) initial_prompt) as [r|e]; [|done].
  simpl. destruct (all_true (evaluation r)) eqn:Hall.
  - intros [= <-]. exists r, (evaluation r). simpl.
    split; [heap_lookup|]. split; [heap_lookup|]. split; [done|].
    unfold new_events. simpl. by rewrite drop_app_length.
  - destruct (llm _ refined_prompt_text) as [r2|e]; [|done].
    intros [= <-]. exists r, (evaluation r). simpl.
    split; [heap_lookup|]. split; [heap_lookup|]. split; [done|].
    exists r2, (evaluation r2).
    split; [heap_lookup|]. split; [heap_lookup|].
    unfold new_events. simpl. by rewrite <- app_assoc, drop_app_length.
Qed.

Lemma printed_is_stored_witness :
  printed_lines (out (fst (run_cell (scripted ["It learns from data."]) (State ∅ [])))) =
    [ [PStr "It learns from data."];
      [PStr "Evaluation results:";
       PDict [("word_count", true); ("no_excluded_words", true); ("no_analogies", true)]] ].
Proof.
  destruct (printed_is_stored (scripted ["It learns from data."]) (State ∅ [])
              {| response := 1%positive; constraints := 2%positive;
                 evaluation_results := 3%positive; refined := None |})
    as (r & d & Hr & Hd & _ & Hp).
  - vm_compute. reflexivity.
  - vm_compute in Hr. vm_compute in Hd.
    injection Hr as <-. injection Hd as <-. exact Hp.
Defined.

(** ** The cells in sequence *)

Section SequenceFacts.

Variable llm : list event -> str -> result str.






End SequenceFacts.



(** ** The prompts *)

(** X16.  The three templates take their values as they are: each value
    stands in the prompt where its field stood, between the fixed
    pieces of the template, and is not read again for fields, so that a
    value with braces in it comes out unchanged. *)
Theorem templates_render (topic style excluded exclude : str) :
  format negative_example_prompt [("topic", topic)] =
    Ok ("Provide a brief explanation of " ++ topic ++ ". " ++ [LF] ++
        "    Do NOT include any of the following in your explanation:" ++ [LF] ++
        "    - Technical jargon or complex terminology" ++ [LF] ++
        "    - Historical background or dates" ++ [LF] ++
        "    - Comparisons to other related topics" ++ [LF] ++
        "    Your explanation should be simple, direct, and focus only on the core concept.") /\
  format exclusion_prompt [("topic", topic); ("exclude", exclude)] =
    Ok ("Write a short paragraph about " ++ topic ++ ". " ++ [LF] ++
        "    Important: Do not mention or reference anything related to " ++
        exclude ++ ".") /\
  format constraint_prompt
    [("topic", topic); ("style", style); ("excluded_words", excluded)] =
    Ok ("Write a " ++ style ++ " description of " ++ topic ++ "." ++ [LF] ++
        "    Constraints:" ++ [LF] ++
        "    1. Do not use any of these words: " ++ excluded ++ [LF] ++
        "    2. Keep the description under 100 words" ++ [LF] ++
        "    3. Do not use analogies or metaphors" ++ [LF] ++
        "    4. Focus only on factual information").
Proof. split; [reflexivity|]. split; reflexivity. Qed.

(** X17.  A field without a value stops the rendering with [KeyError]
    on the name of that field; of several fields without a value, the
    one that comes first in the text of the template is reported, which
    for the constraint template is [style] and not [topic]. *)
Theorem missing_field_raises (kwargs : list (str * str)) :
  (kwarg "topic" kwargs = None ->
   format negative_example_prompt kwargs = Raised (KeyError "topic") /\
   format exclusion_prompt kwargs = Raised (KeyError "topic")) /\
  (is_Some (kwarg "topic" kwargs) -> kwarg "exclude" kwargs = None ->
   format exclusion_prompt kwargs = Raised (KeyError "exclude")) /\
  (kwarg "style" kwargs = None ->
   format constraint_prompt kwargs = Raised (KeyError "style")) /\
  (is_Some (kwarg "style" kwargs) -> kwarg "topic" kwargs = None ->
   format constraint_prompt kwargs = Raised (KeyError "topic")) /\
  (is_Some (kwarg "style" kwargs) -> is_Some (kwarg "topic" kwargs) ->
   kwarg "excluded_words" kwargs = None ->
   format constraint_prompt kwargs = Raised (KeyError "excluded_words")).
Proof.
  unfold format. split; [|split; [|split; [|split]]].
  - intros H. split; simpl; by rewrite H.
  - intros [t Ht] H. simpl. rewrite Ht. simpl. by rewrite H.
  - intros H. simpl. by rewrite H.
  - intros [s Hs] H. simpl. rewrite Hs. simpl. by rewrite H.
  - intros [s Hs] [t Ht] H. simpl. rewrite Hs. simpl. rewrite Ht. simpl. by rewrite H.
Qed.

Lemma missing_field_raises_witness :
  format exclusion_prompt [("topic", "the benefits of exercise")] =
    Raised (KeyError "exclude") /\
  format constraint_prompt [("excluded_words", "robot")] = Raised (KeyError "style").
Proof.
  destruct (missing_field_raises [("topic", "the benefits of exercise")])
    as (_ & H1 & _).
  destruct (missing_field_raises [("excluded_words", "robot")])
    as (_ & _ & H2 & _).
  split; [apply H1; [by eexists | reflexivity] | apply H2; reflexivity].
Defined.

(** ** The forbidden phrase *)

(** X18.  The forbidden phrase [science fiction] is looked for with one
    plain space between its two words: with any other single character
    in that place (a line end, a tabulation, a hyphen) the response
    passes [no_excluded_words]. *)
Theorem science_fiction_needs_plain_space (c : ascii) :
  no_excluded_words ("Science" ++ c :: "fiction") = negb (Char.eqb c " ").
Proof. destruct c as [[] [] [] [] [] [] [] []]; vm_compute; reflexivity. Qed.
